(** * The raw-socket TCP listener of gor (listener/raw_tcp_listener.go)

    A shallow embedding of [RAWTCPListener]: the capture loop
    [readRAWSocket], the dispatcher loop [listen] with
    [processTCPPacket], the start-up routine [startSniffer] and the
    public [RAWTCPListen] / [Receive] pair, together with the properties
    the specification states about them. *)

From stdpp Require Import base option list gmap strings relations.
From Stdlib Require Import ZArith Ascii Lia DecimalString.

Local Open Scope string_scope.
Local Open Scope list_scope.
Local Open Scope Z_scope.

(** ** The capture library at its interface (github.com/akrennmair/gopcap)

    Only what the listener reads is kept.  Fixed-width unsigned integers
    ([uint16], [uint32]) are carried as [Z]; the listener performs no
    arithmetic on them, only comparisons and a bit test. *)
Module pcap.

(** [Tcphdr]: the fields of the decoded TCP header. *)
Record Tcphdr := {
  SrcPort : Z;   (* uint16 *)
  DestPort : Z;  (* uint16 *)
  Seq : Z;       (* uint32 *)
  Ack : Z;       (* uint32 *)
  Flags : Z      (* uint16 *)
}.

(** [Packet.Headers] is a []interface{}; its dynamic types are the
    header structs that [Decode] appends. *)
Inductive Header :=
| Iphdr
| Ip6hdr
| Arphdr
| Udphdr
| Icmphdr
| TcpHeader (h : Tcphdr).

(** A packet as [pkt.Decode()] leaves it. *)
Record Packet := {
  Headers : list Header;
  Payload : string
}.

(** The flag constants: [TCP_FIN = 1 << iota], then SYN, RST, PSH, ACK. *)
Definition TCP_FIN : Z := 1.
Definition TCP_SYN : Z := 2.
Definition TCP_RST : Z := 4.
Definition TCP_PSH : Z := 8.
Definition TCP_ACK : Z := 16.

(** [Interface]: an entry of [Findalldevs]. *)
Record Interface := { Name : string; Description : string }.

(** A live capture handle ([*Pcap], when not nil). *)
Record Pcap := { cptr : nat }.

(** What a call into the library does: it returns, or the Go runtime
    panics inside it. *)
Inductive call (A : Type) :=
| Returns (a : A)
| Panics.
Arguments Returns {A} a.
Arguments Panics {A}.

(** The three entry points [startSniffer] uses.  An [error] is carried
    as the text of its [Error()]; [None] is Go's nil, for errors and
    for the handle alike. *)
Record Library := {
  Findalldevs : list Interface * option string;
  Openlive : string -> Z -> bool -> Z -> option Pcap * option string;
  Setfilter : option Pcap -> string -> call (option string)
}.

End pcap.

(** ** Go's conversion [string(i)] of an integer

    The conversion yields the UTF-8 encoding of the code point [i];
    values that are no valid code point (negative, above 0x10FFFF, or a
    surrogate half) yield the encoding of U+FFFD. *)
Definition byte (b : Z) : ascii := ascii_of_N (Z.to_N b).

Definition RuneError : string :=
  String (byte 0xEF) (String (byte 0xBF) (String (byte 0xBD) "")).

Definition go_string_of_int (i : Z) : string :=
  if (i <? 0) || (0x10FFFF <? i) || ((0xD800 <=? i) && (i <=? 0xDFFF)) then
    RuneError
  else if i <? 0x80 then
    String (byte i) ""
  else if i <? 0x800 then
    String (byte (Z.lor 0xC0 (Z.shiftr i 6)))
      (String (byte (Z.lor 0x80 (Z.land i 0x3F))) "")
  else if i <? 0x10000 then
    String (byte (Z.lor 0xE0 (Z.shiftr i 12)))
      (String (byte (Z.lor 0x80 (Z.land (Z.shiftr i 6) 0x3F)))
        (String (byte (Z.lor 0x80 (Z.land i 0x3F))) ""))
  else
    String (byte (Z.lor 0xF0 (Z.shiftr i 18)))
      (String (byte (Z.lor 0x80 (Z.land (Z.shiftr i 12) 0x3F)))
        (String (byte (Z.lor 0x80 (Z.land (Z.shiftr i 6) 0x3F)))
          (String (byte (Z.lor 0x80 (Z.land i 0x3F))) ""))).

(** ** The reassembly unit (tcp_message.go)

    The listener uses three things of a [TCPMessage]: the constructor
    [NewTCPMessage], the field [Ack] and the channel [c_packets]. *)
Module tcp_message.

(** Modelled from the spec: the completion/expiry flag of a
    [TCPMessage], declared in tcp_message.go: Building until the
    disposition is reported, then Completed or Expired. *)
Inductive Status := Building | Completed | Expired.

#[global] Instance Status_eq_dec : EqDecision Status.
Proof. solve_decision. Defined.

(** Modelled from the spec: the [TCPMessage] struct, declared in
    tcp_message.go.  The flow key, the ordered payload buffer and the
    completion/expiry flag are those of the data model; [c_packets] is
    the channel on which the dispatcher hands packets over. *)
Record TCPMessage := {
  Ack : Z;
  c_packets : list pcap.Packet;
  buffer : string;
  status : Status
}.

(** Modelled from the spec: [NewTCPMessage], defined in tcp_message.go:
    a new unit for the flow key, nothing received yet.  The channel
    argument of the source is the listener's [c_del_message], the only
    disposition channel there is. *)
Definition NewTCPMessage (ack : Z) : TCPMessage :=
  {| Ack := ack; c_packets := []; buffer := ""; status := Building |}.

Definition set_c_packets (f : list pcap.Packet -> list pcap.Packet)
    (m : TCPMessage) : TCPMessage :=
  {| Ack := Ack m; c_packets := f (c_packets m); buffer := buffer m;
     status := status m |}.

Definition set_buffer (b : string) (m : TCPMessage) : TCPMessage :=
  {| Ack := Ack m; c_packets := c_packets m; buffer := b;
     status := status m |}.

Definition set_status (s : Status) (m : TCPMessage) : TCPMessage :=
  {| Ack := Ack m; c_packets := c_packets m; buffer := buffer m;
     status := s |}.

(** The push flag of a packet, read from its TCP header. *)
Definition has_push (packet : pcap.Packet) : bool :=
  match pcap.Headers packet !! 1%nat with
  | Some (pcap.TcpHeader h) =>
      negb (Z.land (pcap.Flags h) pcap.TCP_PSH =? 0)
  | _ => false
  end.

(** Modelled from the spec: [append(packet)] of tcp_message.go: add
    the payload to the buffer; if the packet carries the push flag,
    mark Completed and emit self on the disposition channel, the
    internal flag being checked before emitting.  The boolean says
    whether the message emits itself. *)
Definition append (packet : pcap.Packet) (m : TCPMessage)
    : TCPMessage * bool :=
  let m' := set_buffer (buffer m +:+ pcap.Payload packet) m in
  if has_push packet && bool_decide (status m = Building)
  then (set_status Completed m', true)
  else (m', false).

(** Modelled from the spec: the inactivity watchdog of tcp_message.go
    firing: mark Expired and emit self, unless a disposition was
    reported already. *)
Definition expire (m : TCPMessage) : TCPMessage * bool :=
  if bool_decide (status m = Building)
  then (set_status Expired m, true)
  else (m, false).

End tcp_message.

(** ** The listener *)

(** A [*TCPMessage]: the address of a message among the allocated ones. *)
Abbreviation ptr := nat (only parsing).

Record RAWTCPListener := {
  messages : gmap Z ptr;            (* map[uint32]*TCPMessage *)
  c_packets : list pcap.Packet;     (* chan *pcap.Packet, 100 *)
  c_messages : list ptr;            (* chan *TCPMessage, 100 *)
  sniffer : option pcap.Pcap;
  c_del_message : list ptr;         (* chan *TCPMessage, 100 *)
  device : string;
  port : Z                          (* int *)
}.

Definition chan_capacity : nat := 100.

Definition set_messages (f : gmap Z ptr -> gmap Z ptr) (t : RAWTCPListener) :=
  {| messages := f (messages t); c_packets := c_packets t;
     c_messages := c_messages t; sniffer := sniffer t;
     c_del_message := c_del_message t; device := device t; port := port t |}.

Definition set_c_packets (f : list pcap.Packet -> list pcap.Packet)
    (t : RAWTCPListener) :=
  {| messages := messages t; c_packets := f (c_packets t);
     c_messages := c_messages t; sniffer := sniffer t;
     c_del_message := c_del_message t; device := device t; port := port t |}.

Definition set_c_messages (f : list ptr -> list ptr) (t : RAWTCPListener) :=
  {| messages := messages t; c_packets := c_packets t;
     c_messages := f (c_messages t); sniffer := sniffer t;
     c_del_message := c_del_message t; device := device t; port := port t |}.

Definition set_c_del_message (f : list ptr -> list ptr) (t : RAWTCPListener) :=
  {| messages := messages t; c_packets := c_packets t;
     c_messages := c_messages t; sniffer := sniffer t;
     c_del_message := f (c_del_message t); device := device t; port := port t |}.

Definition set_sniffer (h : option pcap.Pcap) (t : RAWTCPListener) :=
  {| messages := messages t; c_packets := c_packets t;
     c_messages := c_messages t; sniffer := h;
     c_del_message := c_del_message t; device := device t; port := port t |}.

Definition set_device (d : string) (t : RAWTCPListener) :=
  {| messages := messages t; c_packets := c_packets t;
     c_messages := c_messages t; sniffer := sniffer t;
     c_del_message := c_del_message t; device := d; port := port t |}.

(** A send on a channel appends at the back, a receive takes the front. *)
Definition send {A} (x : A) (ch : list A) : list A := ch ++ [x].

(** *** readRAWSocket

    One turn of the [for] loop, given what [t.sniffer.Next()] returned
    ([None] is the nil packet).  The result is the listener after the
    turn: the same one when the turn ends in [continue] or falls out of
    the [switch], the one with [pkt] sent on [c_packets] otherwise. *)
Definition readRAWSocket (t : RAWTCPListener) (next : option pcap.Packet)
    : RAWTCPListener :=
  match next with
  | None => t
  | Some pkt =>
      if (length (pcap.Headers pkt) <? 2)%nat then t
      else
        match pcap.Headers pkt !! 1%nat with
        | Some (pcap.TcpHeader header) =>
            let port' := pcap.DestPort header in
            if (port' =? port t)
               && negb (Z.land (pcap.Flags header) pcap.TCP_PSH =? 0)
            then set_c_packets (send pkt) t
            else t
        | _ => t
        end
  end.

(** *** processTCPPacket

    The allocated messages are the list [heap]; a [*TCPMessage] is an
    index into it and [NewTCPMessage] allocates at its end.  [None] is a
    run-time panic: [packet.Headers[1]] out of range, or the type
    assertion to a pointer to [pcap.Tcphdr] on another header. *)
Definition processTCPPacket (packet : pcap.Packet) (t : RAWTCPListener)
    (heap : list tcp_message.TCPMessage)
    : option (RAWTCPListener * list tcp_message.TCPMessage) :=
  match pcap.Headers packet !! 1%nat with
  | Some (pcap.TcpHeader h) =>
      let ack := pcap.Ack h in
      let '(message, t, heap) :=
        match messages t !! ack with
        | Some message => (message, t, heap)
        | None =>
            let message := List.length heap in
            (message, set_messages <[ack := message]> t,
             heap ++ [tcp_message.NewTCPMessage ack])
        end in
      Some (t, alter (tcp_message.set_c_packets (send packet)) message heap)
  | _ => None
  end.

(** *** listen

    One turn of the [select]: what was received, and from which channel.
    Reading [message.Ack] dereferences the pointer; a pointer to no
    allocated message ([None]) is what a Go program never holds. *)
Inductive event :=
| from_c_del_message (message : ptr)
| from_c_packets (packet : pcap.Packet).

Definition listen (ev : event) (t : RAWTCPListener)
    (heap : list tcp_message.TCPMessage)
    : option (RAWTCPListener * list tcp_message.TCPMessage) :=
  match ev with
  | from_c_del_message message =>
      match heap !! message with
      | Some m =>
          let t := set_c_messages (send message) t in
          Some (set_messages (delete (tcp_message.Ack m)) t, heap)
      | None => None
      end
  | from_c_packets packet => processTCPPacket packet t heap
  end.

(** *** Receive: the front of [c_messages], when there is one. *)
Definition Receive (t : RAWTCPListener) : option (ptr * RAWTCPListener) :=
  match c_messages t with
  | message :: rest => Some (message, set_c_messages (fun _ => rest) t)
  | [] => None
  end.

(** ** The running system

    The goroutines started by [RAWTCPListen] ([listen], [readRAWSocket]),
    the goroutine and the watchdog of every [TCPMessage], and the caller
    of [Receive] interleave; they share the listener's channels and the
    allocated messages.  [wire] is what the successive calls of
    [t.sniffer.Next()] return, [received] what the successive calls of
    [Receive] returned. *)
Record World := {
  listener : RAWTCPListener;
  heap : list tcp_message.TCPMessage;
  wire : list (option pcap.Packet);
  received : list ptr
}.

(** A step is one turn of one loop, or one call of [Receive].  A send
    on a buffered channel that is full blocks: the turn is taken only
    when its send fits.  [timers] tells whether watchdogs may fire.
    The two steps of a message ([step_message_packet], a packet taken
    from its own [c_packets] and appended, and [step_message_timeout])
    are those of tcp_message.go as [tcp_message.append] and
    [tcp_message.expire] model it. *)
Inductive step (timers : bool) : World -> World -> Prop :=
| step_readRAWSocket w next rest t' :
    wire w = next :: rest ->
    readRAWSocket (listener w) next = t' ->
    (List.length (c_packets t') <= chan_capacity)%nat ->
    step timers w
      {| listener := t'; heap := heap w; wire := rest;
         received := received w |}
| step_listen_del w message rest t' heap' :
    c_del_message (listener w) = message :: rest ->
    listen (from_c_del_message message)
      (set_c_del_message (fun _ => rest) (listener w)) (heap w)
      = Some (t', heap') ->
    (List.length (c_messages t') <= chan_capacity)%nat ->
    step timers w
      {| listener := t'; heap := heap'; wire := wire w;
         received := received w |}
| step_listen_packet w packet rest t' heap' :
    c_packets (listener w) = packet :: rest ->
    listen (from_c_packets packet)
      (set_c_packets (fun _ => rest) (listener w)) (heap w)
      = Some (t', heap') ->
    step timers w
      {| listener := t'; heap := heap'; wire := wire w;
         received := received w |}
| step_message_packet w message m packet rest m' emit t' :
    heap w !! message = Some m ->
    tcp_message.c_packets m = packet :: rest ->
    tcp_message.append packet
      (tcp_message.set_c_packets (fun _ => rest) m) = (m', emit) ->
    (if emit then set_c_del_message (send message) (listener w)
     else listener w) = t' ->
    (List.length (c_del_message t') <= chan_capacity)%nat ->
    step timers w
      {| listener := t'; heap := <[message := m']> (heap w);
         wire := wire w; received := received w |}
| step_message_timeout w message m m' emit t' :
    timers = true ->
    heap w !! message = Some m ->
    tcp_message.expire m = (m', emit) ->
    (if emit then set_c_del_message (send message) (listener w)
     else listener w) = t' ->
    (List.length (c_del_message t') <= chan_capacity)%nat ->
    step timers w
      {| listener := t'; heap := <[message := m']> (heap w);
         wire := wire w; received := received w |}
| step_Receive w message t' :
    Receive (listener w) = Some (message, t') ->
    step timers w
      {| listener := t'; heap := heap w; wire := wire w;
         received := received w ++ [message] |}.

(** The system right after [RAWTCPListen] returned [t]. *)
Definition start (t : RAWTCPListener) (frames : list (option pcap.Packet))
    : World :=
  {| listener := t; heap := []; wire := frames; received := [] |}.

(** ** Start-up

    [startSniffer] calls into the capture library and may stop the
    process through [log.Fatal].  A computation yields the calls it
    made, in order, and how it ended. *)
Inductive op :=
| call_Findalldevs
| call_Openlive (device : string) (snaplen : Z) (promisc : bool)
    (timeout_ms : Z)
| call_Setfilter (h : option pcap.Pcap) (expr : string).

Inductive outcome (A : Type) :=
| Done (a : A)
| Fatal (diag : string)   (* log.Fatal: the diagnostic, then os.Exit(1) *)
| Panic.                  (* a run-time panic *)
Arguments Done {A} a.
Arguments Fatal {A} diag.
Arguments Panic {A}.

Definition proc (A : Type) : Type := list op * outcome A.

#[global] Instance proc_ret : MRet proc := fun A a => ([], Done a).

#[global] Instance proc_bind : MBind proc := fun A B k c =>
  match c with
  | (ops, Done a) => let '(ops', r) := k a in (ops ++ ops', r)
  | (ops, Fatal diag) => (ops, Fatal diag)
  | (ops, Panic) => (ops, Panic)
  end.

(** [log.Fatal(v...)]: the operands as [fmt.Sprint] joins them (no
    space next to a string operand). *)
Definition log_Fatal {A} (diag : string) : proc A := ([], Fatal diag).

Definition map_outcome {A B} (f : A -> B) (c : proc A) : proc B :=
  x ← c; mret (f x).

Section Startup.

(** The global [Settings] of the package is declared outside this
    file; its field [Device] is all that is read here. *)
Variable Settings_Device : string.

(** The capture library the process is linked against. *)
Variable lib : pcap.Library.

Definition Findalldevs : proc (list pcap.Interface * option string) :=
  ([call_Findalldevs], Done (pcap.Findalldevs lib)).

Definition Openlive (device : string) (snaplen : Z) (promisc : bool)
    (timeout_ms : Z) : proc (option pcap.Pcap * option string) :=
  ([call_Openlive device snaplen promisc timeout_ms],
   Done (pcap.Openlive lib device snaplen promisc timeout_ms)).

Definition Setfilter (h : option pcap.Pcap) (expr : string)
    : proc (option string) :=
  ([call_Setfilter h expr],
   match pcap.Setfilter lib h expr with
   | pcap.Returns err => Done err
   | pcap.Panics => Panic
   end).

(** The [for ... range devices] loop with its [break]. *)
Fixpoint find_networkInterface (devices : list pcap.Interface) : string :=
  match devices with
  | [] => ""
  | device :: devices =>
      if String.eqb (pcap.Name device) Settings_Device
      then pcap.Name device
      else find_networkInterface devices
  end.

(** The filter expression handed to [Setfilter]. *)
Definition filter_expression (t : RAWTCPListener) : string :=
  "tcp dst port " +:+ go_string_of_int (port t).

Definition startSniffer (t : RAWTCPListener) : proc RAWTCPListener :=
  '(devices, err) ← Findalldevs;
  _ ← match err with
       | Some e => log_Fatal ("Error while getting device list" +:+ e)
       | None => mret tt
       end;
  let networkInterface := find_networkInterface devices in
  _ ← (if String.eqb networkInterface ""
        then log_Fatal ("Could not find network interface"
                        +:+ Settings_Device)
        else mret tt);
  '(h, err) ← Openlive networkInterface 4026 true 0;
  _ ← Setfilter h (filter_expression t);
  _ ← match err with
       | Some e => log_Fatal ("Error while trying to listen" +:+ e)
       | None => mret tt
       end;
  mret (set_sniffer h t).

(** [RAWTCPListen]: the two [go] statements after [startSniffer] start
    the loops of the running system. *)
Definition RAWTCPListen (device : string) (port : Z)
    : proc RAWTCPListener :=
  let listener :=
    {| messages := ∅; c_packets := []; c_messages := [];
       sniffer := None; c_del_message := [];
       device := device; port := port |} in
  listener ← startSniffer listener;
  mret listener.

(** The states the process can be in once [RAWTCPListen] has returned. *)
Definition running (device : string) (port : Z)
    (frames : list (option pcap.Packet)) (w : World) : Prop :=
  exists ops t,
    RAWTCPListen device port = (ops, Done t)
    /\ rtc (step true) (start t frames) w.

End Startup.

(** What [readRAWSocket] tests, as a proposition. *)
Definition wanted (t : RAWTCPListener) (pkt : pcap.Packet) : Prop :=
  exists header,
    pcap.Headers pkt !! 1%nat = Some (pcap.TcpHeader header)
    /\ pcap.DestPort header = port t
    /\ Z.land (pcap.Flags header) pcap.TCP_PSH <> 0.

(** ** Reachable states and what holds in all of them *)

(** A listener as [RAWTCPListen] makes it: channels and table empty. *)
Definition fresh (t : RAWTCPListener) : Prop :=
  messages t = ∅ /\ c_packets t = [] /\ c_messages t = []
  /\ c_del_message t = [].

Definition reachable (w : World) : Prop :=
  exists t frames, fresh t /\ rtc (step true) (start t frames) w.

(** A packet whose second decoded header is a TCP header. *)
Definition tcp_packet (packet : pcap.Packet) : Prop :=
  exists h, pcap.Headers packet !! 1%nat = Some (pcap.TcpHeader h).

(** A pointer to an allocated message. *)
Definition allocated (heap : list tcp_message.TCPMessage) (message : ptr)
    : Prop :=
  (message < List.length heap)%nat.

Record invariant (w : World) : Prop := {
  inv_table : forall ack message,
    messages (listener w) !! ack = Some message ->
    exists m, heap w !! message = Some m /\ tcp_message.Ack m = ack;
  inv_c_packets : forall packet,
    packet ∈ c_packets (listener w) -> tcp_packet packet;
  inv_c_del_message : forall message,
    message ∈ c_del_message (listener w) -> allocated (heap w) message;
  inv_c_messages : forall message,
    message ∈ c_messages (listener w) -> allocated (heap w) message;
  inv_received : forall message,
    message ∈ received w -> allocated (heap w) message
}.

(** The allocated messages only grow, and a message keeps its [Ack]. *)
Definition heap_le (heap heap' : list tcp_message.TCPMessage) : Prop :=
  forall message m,
    heap !! message = Some m ->
    exists m', heap' !! message = Some m'
               /\ tcp_message.Ack m' = tcp_message.Ack m.

(** ** The two-packet scenario of the specification

    Two packets of the flow with acknowledgment number 42, both to the
    configured port 80: the first carries "GET /" without the push flag,
    the second the rest of the request line with it. *)
Definition CRLF : string := String "013" (String "010" "").

Definition segment (ack flags : Z) (payload : string) : pcap.Packet :=
  {| pcap.Headers :=
       [pcap.Iphdr;
        pcap.TcpHeader
          {| pcap.SrcPort := 51234; pcap.DestPort := 80; pcap.Seq := 1;
             pcap.Ack := ack; pcap.Flags := flags |}];
     pcap.Payload := payload |}.

Definition first_packet : pcap.Packet := segment 42 pcap.TCP_ACK "GET /".

Definition second_payload : string := " HTTP/1.1" +:+ CRLF +:+ CRLF.

Definition second_packet : pcap.Packet :=
  segment 42 (Z.lor pcap.TCP_PSH pcap.TCP_ACK) second_payload.

(** A capture library on a host with the device eth0, where every call
    succeeds. *)
Definition eth0_lib : pcap.Library :=
  {| pcap.Findalldevs :=
       ([ {| pcap.Name := "lo"; pcap.Description := "" |};
          {| pcap.Name := "eth0"; pcap.Description := "" |} ], None);
     pcap.Openlive := fun _ _ _ _ => (Some {| pcap.cptr := 1 |}, None);
     pcap.Setfilter := fun h _ =>
       match h with
       | Some _ => pcap.Returns None
       | None => pcap.Panics
       end |}.

Definition scenario_listener : RAWTCPListener :=
  {| messages := ∅; c_packets := []; c_messages := [];
     sniffer := Some {| pcap.cptr := 1 |}; c_del_message := [];
     device := "eth0"; port := 80 |}.

Definition at_stage (table : gmap Z ptr) (queue : list pcap.Packet)
    (finished delivered : list ptr) (units : list tcp_message.TCPMessage)
    (frames : list (option pcap.Packet)) (got : list ptr) : World :=
  {| listener :=
       {| messages := table; c_packets := queue; c_messages := delivered;
          sniffer := Some {| pcap.cptr := 1 |}; c_del_message := finished;
          device := "eth0"; port := 80 |};
     heap := units; wire := frames; received := got |}.

Definition unit42 (inbox : list pcap.Packet) (buf : string)
    (st : tcp_message.Status) : tcp_message.TCPMessage :=
  {| tcp_message.Ack := 42; tcp_message.c_packets := inbox;
     tcp_message.buffer := buf; tcp_message.status := st |}.

(** The states the scenario goes through when no watchdog fires. *)
Definition scenario : World :=
  start scenario_listener [Some first_packet; Some second_packet].
Definition scenario_first_read : World :=
  at_stage ∅ [] [] [] [] [Some second_packet] [].
Definition scenario_second_read : World :=
  at_stage ∅ [second_packet] [] [] [] [] [].
Definition scenario_dispatched : World :=
  at_stage {[ 42 := 0%nat ]} [] [] []
    [unit42 [second_packet] "" tcp_message.Building] [] [].
Definition scenario_completed : World :=
  at_stage {[ 42 := 0%nat ]} [] [0%nat] []
    [unit42 [] second_payload tcp_message.Completed] [] [].
Definition scenario_evicted : World :=
  at_stage ∅ [] [] [0%nat]
    [unit42 [] second_payload tcp_message.Completed] [] [].
Definition scenario_received : World :=
  at_stage ∅ [] [] []
    [unit42 [] second_payload tcp_message.Completed] [] [0%nat].

Definition scenario_stages : list World :=
  [scenario; scenario_first_read; scenario_second_read;
   scenario_dispatched; scenario_completed; scenario_evicted;
   scenario_received].

(** The buffer the specification expects the scenario to deliver. *)
Definition expected_buffer : string := "GET /" +:+ second_payload.

(** The scenario as the specification states it: whatever [Receive]
    returns holds the whole request line and is Completed. *)
Definition scenario_as_specified : Prop :=
  forall w,
    rtc (step false) scenario w ->
    forall message m,
      message ∈ received w ->
      heap w !! message = Some m ->
      tcp_message.buffer m = expected_buffer
      /\ tcp_message.status m = tcp_message.Completed.

(** What every run of the scenario keeps, watchdogs or not: the first
    packet never gets past [readRAWSocket], so only the second packet
    travels, and a buffer is empty or starts with the blank that the
    second payload starts with. *)
Definition blank_led (b : string) : Prop :=
  b = "" \/ exists rest, b = String " " rest.

Record second_only (w : World) : Prop := {
  so_port : port (listener w) = 80;
  so_wire : forall next,
    next ∈ wire w ->
    next = Some first_packet \/ next = Some second_packet;
  so_c_packets : forall p,
    p ∈ c_packets (listener w) -> p = second_packet;
  so_heap : forall message m,
    heap w !! message = Some m ->
    (forall p, p ∈ tcp_message.c_packets m -> p = second_packet)
    /\ blank_led (tcp_message.buffer m)
}.

(** ** The lifetime of one reassembly unit

    What happens to a [TCPMessage] is a sequence of packets handed to
    [append] and of firings of its watchdog.  [lifetime] runs the
    sequence and counts how often the message emitted itself on the
    disposition channel. *)
Inductive happening :=
| packet_arrives (packet : pcap.Packet)
| watchdog_fires.

Definition react (ev : happening) (m : tcp_message.TCPMessage)
    : tcp_message.TCPMessage * bool :=
  match ev with
  | packet_arrives packet => tcp_message.append packet m
  | watchdog_fires => tcp_message.expire m
  end.

Fixpoint lifetime (evs : list happening) (m : tcp_message.TCPMessage)
    : tcp_message.TCPMessage * nat :=
  match evs with
  | [] => (m, 0%nat)
  | ev :: evs =>
      let '(m', emit) := react ev m in
      let '(m'', n) := lifetime evs m' in
      (m'', ((if emit then 1 else 0) + n)%nat)
  end.

(** A happening that ends the Building state: a packet with the push
    flag, or the watchdog. *)
Definition decisive (ev : happening) : bool :=
  match ev with
  | packet_arrives packet => tcp_message.has_push packet
  | watchdog_fires => true
  end.

(** The status that the first decisive happening of a lifetime gives. *)
Definition disposition (evs : list happening) : tcp_message.Status :=
  match List.find decisive evs with
  | None => tcp_message.Building
  | Some (packet_arrives _) => tcp_message.Completed
  | Some watchdog_fires => tcp_message.Expired
  end.

(** A host where opening the device fails (the process lacks the
    privilege to capture): [Openlive] returns a nil handle and an
    error, and [Setfilter], which reads the handle's [cptr], panics on
    the nil handle. *)
Definition no_permission_lib : pcap.Library :=
  {| pcap.Findalldevs :=
       ([ {| pcap.Name := "eth0"; pcap.Description := "" |} ], None);
     pcap.Openlive := fun _ _ _ _ =>
       (None, Some "eth0: You don't have permission to capture on that device");
     pcap.Setfilter := fun h _ =>
       match h with
       | Some _ => pcap.Returns None
       | None => pcap.Panics
       end |}.

(** The decimal rendering of an integer, as [strconv.Itoa] gives it. *)
Definition decimal (p : Z) : string :=
  DecimalString.NilEmpty.string_of_int (Z.to_int p).

(** The filter the specification asks for: TCP destined to port [p]. *)
Definition specified_filter (p : Z) : string :=
  "tcp dst port " +:+ decimal p.

(** Every byte of the string is at most [bound]. *)
Fixpoint bytes_at_most (bound : N) (s : string) : Prop :=
  match s with
  | EmptyString => True
  | String c s => (N_of_ascii c <= bound)%N /\ bytes_at_most bound s
  end.

(** ** Proof steps used for the scenario *)

(** A send fits its channel. *)
Ltac fits := unfold chan_capacity; simpl; lia.

(** The cases of one step from a concrete state. *)
Ltac unit_at_0 :=
  repeat match goal with
  | Hm : [_] !! ?message = Some _ |- _ =>
      destruct message as [|?]; simpl in Hm; simplify_eq
  | Hm : [] !! _ = Some _ |- _ => by rewrite lookup_nil in Hm
  end.

Ltac step_cases H :=
  inversion H; subst; clear H; simpl in *; simplify_eq; try done;
  unit_at_0; simpl in *; simplify_eq; try done;
  repeat match goal with
  | Hc : processTCPPacket _ _ _ = Some _ |- _ => vm_compute in Hc
  | Hc : tcp_message.append _ _ = _ |- _ => vm_compute in Hc
  | Hc : Receive _ = Some _ |- _ => vm_compute in Hc
  | Hc : match _ with Some _ => _ | None => _ end = Some _ |- _ =>
      vm_compute in Hc
  end; simplify_eq; try (vm_compute; reflexivity).

(** ** Several turns in a row *)

(** The test of [readRAWSocket] on a decoded packet, as a boolean. *)
Definition wantedb (t : RAWTCPListener) (pkt : pcap.Packet) : bool :=
  match pcap.Headers pkt !! 1%nat with
  | Some (pcap.TcpHeader header) =>
      (pcap.DestPort header =? port t)
      && negb (Z.land (pcap.Flags header) pcap.TCP_PSH =? 0)
  | _ => false
  end.

(** [readRAWSocket] turning once for each of the frames, in order, every
    send going through. *)
Definition capture (t : RAWTCPListener) (frames : list (option pcap.Packet))
    : RAWTCPListener :=
  foldl readRAWSocket t frames.

(** [processTCPPacket] called on each of the packets, in order, as
    [listen] does for what it takes off [c_packets]; a panic ends it. *)
Fixpoint dispatch (packets : list pcap.Packet) (t : RAWTCPListener)
    (heap : list tcp_message.TCPMessage)
    : option (RAWTCPListener * list tcp_message.TCPMessage) :=
  match packets with
  | [] => Some (t, heap)
  | packet :: packets =>
      match processTCPPacket packet t heap with
      | Some (t', heap') => dispatch packets t' heap'
      | None => None
      end
  end.

(** A packet of the flow [ack]: its second header is a TCP header with
    that acknowledgment number. *)
Definition of_flow (ack : Z) (packet : pcap.Packet) : Prop :=
  exists h,
    pcap.Headers packet !! 1%nat = Some (pcap.TcpHeader h)
    /\ pcap.Ack h = ack.

(** Everything signalled as finished so far, in the order of the
    signals: what [Receive] returned, what waits on [c_messages], what
    waits on [c_del_message]. *)
Definition signalled (w : World) : list ptr :=
  received w ++ c_messages (listener w) ++ c_del_message (listener w).

(** What the loops keep of the listener they were started with, and
    where the packets they hold come from. *)
Record routed (t0 : RAWTCPListener) (frames : list (option pcap.Packet))
    (w : World) : Prop := {
  routed_port : port (listener w) = port t0;
  routed_device : device (listener w) = device t0;
  routed_sniffer : sniffer (listener w) = sniffer t0;
  routed_wire : forall next, next ∈ wire w -> next ∈ frames;
  routed_c_packets : forall p,
    p ∈ c_packets (listener w) -> wanted t0 p /\ Some p ∈ frames;
  routed_inbox : forall message m p,
    heap w !! message = Some m ->
    p ∈ tcp_message.c_packets m ->
    wanted t0 p /\ Some p ∈ frames /\ of_flow (tcp_message.Ack m) p
}.

(** A capture library whose [Setfilter] always reports an error, as
    libpcap does for an expression it cannot compile. *)
Definition bad_filter_lib : pcap.Library :=
  {| pcap.Findalldevs :=
       ([ {| pcap.Name := "eth0"; pcap.Description := "" |} ], None);
     pcap.Openlive := fun _ _ _ _ => (Some {| pcap.cptr := 1 |}, None);
     pcap.Setfilter := fun _ _ => pcap.Returns (Some "syntax error") |}.

(** How many of the frames pass the test of [readRAWSocket]. *)
Definition passing (t : RAWTCPListener) (frames : list (option pcap.Packet))
    : nat :=
  List.length (List.filter (wantedb t) (omap id frames)).

(** Units allocated, packets queued for dispatch, and passing frames
    still to come. *)
Definition load (t : RAWTCPListener) (w : World) : nat :=
  (List.length (heap w) + List.length (c_packets (listener w))
   + passing t (wire w))%nat.

(** * Properties *)

(** ** Go's [string(i)] on a few code points *)

Example go_string_of_int_80 : go_string_of_int 80 = "P".
Proof. reflexivity. Qed.

Example go_string_of_int_8080 :
  go_string_of_int 8080
  = String (byte 0xE1) (String (byte 0xBE) (String (byte 0x90) "")).
Proof. reflexivity. Qed.

Example go_string_of_int_negative : go_string_of_int (-1) = RuneError.
Proof. reflexivity. Qed.

Example decimal_8080 : decimal 8080 = "8080".
Proof. reflexivity. Qed.

(** ** The capture loop *)

Lemma send_neq {A} (x : A) (ch : list A) : send x ch <> ch.
Proof.
  unfold send. intros H. apply (f_equal List.length) in H.
  rewrite length_app in H. simpl in H. lia.
Qed.

Lemma lookup_1_short {A} (l : list A) :
  (List.length l <? 2)%nat = true -> l !! 1%nat = None.
Proof.
  intros H. apply Nat.ltb_lt in H. apply lookup_ge_None. lia.
Qed.

Lemma readRAWSocket_wanted t pkt :
  wanted t pkt -> readRAWSocket t (Some pkt) = set_c_packets (send pkt) t.
Proof.
  intros (header & Hh & Hport & Hpsh). unfold readRAWSocket.
  destruct (List.length (pcap.Headers pkt) <? 2)%nat eqn:Hlen.
  - apply lookup_1_short in Hlen. congruence.
  - rewrite Hh. cbn zeta.
    apply Z.eqb_eq in Hport. apply Z.eqb_neq in Hpsh.
    rewrite Hport, Hpsh. reflexivity.
Qed.

Lemma readRAWSocket_unwanted t pkt :
  ~ wanted t pkt -> readRAWSocket t (Some pkt) = t.
Proof.
  intros Hn. unfold readRAWSocket.
  destruct (List.length (pcap.Headers pkt) <? 2)%nat; [reflexivity|].
  destruct (pcap.Headers pkt !! 1%nat) as [[| | | | |header]|] eqn:Hh;
    try reflexivity.
  cbn zeta.
  destruct (pcap.DestPort header =? port t) eqn:Hport; [|reflexivity].
  destruct (Z.land (pcap.Flags header) pcap.TCP_PSH =? 0) eqn:Hpsh;
    [reflexivity|].
  exfalso. apply Hn. exists header.
  apply Z.eqb_eq in Hport. apply Z.eqb_neq in Hpsh. auto.
Qed.

(** C2: a decoded packet is put on the capture queue exactly when its
    TCP header (the second decoded header) has the configured
    destination port and the PSH flag; any other packet leaves the
    listener as it was: nothing is sent, nothing is reported. *)
Theorem readRAWSocket_enqueues_iff (t : RAWTCPListener) (pkt : pcap.Packet) :
  let t' := readRAWSocket t (Some pkt) in
  (c_packets t' = send pkt (c_packets t) <->
     exists header,
       pcap.Headers pkt !! 1%nat = Some (pcap.TcpHeader header)
       /\ pcap.DestPort header = port t
       /\ Z.land (pcap.Flags header) pcap.TCP_PSH <> 0)
  /\ (c_packets t' <> send pkt (c_packets t) -> t' = t).
Proof.
  cbn zeta. fold (wanted t pkt).
  assert (Hdec : wanted t pkt \/ ~ wanted t pkt).
  { unfold wanted.
    destruct (pcap.Headers pkt !! 1%nat) as [[| | | | |header]|] eqn:Hh;
      try (right; intros (? & ? & _); congruence).
    destruct (decide (pcap.DestPort header = port t)) as [Hp|Hp];
      [|right; intros (? & ? & ? & _); congruence].
    destruct (decide (Z.land (pcap.Flags header) pcap.TCP_PSH = 0))
      as [Hf|Hf]; [right; intros (? & ? & _ & ?); congruence|].
    left. eauto. }
  destruct Hdec as [Hw|Hn].
  - rewrite (readRAWSocket_wanted _ _ Hw). simpl. split; [tauto|congruence].
  - rewrite (readRAWSocket_unwanted _ _ Hn). split; [|reflexivity].
    split; [|tauto]. intros H. symmetry in H. by apply send_neq in H.
Qed.

(** ** The allocated messages *)

Lemma heap_le_refl heap : heap_le heap heap.
Proof. intros message m H. eauto. Qed.

Lemma heap_le_trans h1 h2 h3 : heap_le h1 h2 -> heap_le h2 h3 -> heap_le h1 h3.
Proof.
  intros H12 H23 message m H.
  destruct (H12 _ _ H) as (m2 & H2 & E2).
  destruct (H23 _ _ H2) as (m3 & H3 & E3).
  exists m3. split; [done|congruence].
Qed.

Lemma heap_le_app heap l : heap_le heap (heap ++ l).
Proof.
  intros message m H. exists m. split; [|done].
  by apply lookup_app_l_Some.
Qed.

Lemma heap_le_alter f i heap :
  (forall m, tcp_message.Ack (f m) = tcp_message.Ack m) ->
  heap_le heap (alter f i heap).
Proof.
  intros Hf message m H.
  destruct (decide (i = message)) as [->|Hne].
  - exists (f m). split; [|apply Hf].
    rewrite list_lookup_alter_eq, H. done.
  - exists m. split; [|done]. by rewrite list_lookup_alter_ne.
Qed.

Lemma heap_le_insert i m m' heap :
  heap !! i = Some m ->
  tcp_message.Ack m' = tcp_message.Ack m ->
  heap_le heap (<[i := m']> heap).
Proof.
  intros Hi Hack message m0 H.
  destruct (decide (i = message)) as [->|Hne].
  - exists m'. split; [|congruence].
    apply list_lookup_insert_eq. by eapply lookup_lt_Some.
  - exists m0. split; [|done]. by rewrite list_lookup_insert_ne.
Qed.

Lemma heap_le_allocated heap heap' message :
  heap_le heap heap' -> allocated heap message -> allocated heap' message.
Proof.
  unfold allocated. intros Hle Hlt.
  destruct (lookup_lt_is_Some_2 heap message Hlt) as [m Hm].
  destruct (Hle _ _ Hm) as (m' & Hm' & _). by eapply lookup_lt_Some.
Qed.

Lemma append_Ack packet m m' emit :
  tcp_message.append packet m = (m', emit) ->
  tcp_message.Ack m' = tcp_message.Ack m.
Proof.
  unfold tcp_message.append. intros H.
  destruct (_ && _); by simplify_eq.
Qed.

Lemma expire_Ack m m' emit :
  tcp_message.expire m = (m', emit) ->
  tcp_message.Ack m' = tcp_message.Ack m.
Proof.
  unfold tcp_message.expire. intros H.
  destruct (bool_decide _); by simplify_eq.
Qed.

(** ** The dispatcher *)

(** [processTCPPacket], case by case. *)
Lemma processTCPPacket_Some packet t heap t' heap' :
  processTCPPacket packet t heap = Some (t', heap') ->
  exists h,
    pcap.Headers packet !! 1%nat = Some (pcap.TcpHeader h)
    /\ match messages t !! pcap.Ack h with
       | Some message =>
           t' = t
           /\ heap' = alter (tcp_message.set_c_packets (send packet))
                        message heap
       | None =>
           t' = set_messages <[pcap.Ack h := List.length heap]> t
           /\ heap' = alter (tcp_message.set_c_packets (send packet))
                        (List.length heap)
                        (heap ++ [tcp_message.NewTCPMessage (pcap.Ack h)])
       end.
Proof.
  unfold processTCPPacket. intros H.
  destruct (pcap.Headers packet !! 1%nat) as [[| | | | |h]|]; try done.
  exists h. split; [done|]. cbn zeta in H.
  destruct (messages t !! pcap.Ack h); by simplify_eq.
Qed.

Lemma processTCPPacket_tcp packet t heap :
  tcp_packet packet -> is_Some (processTCPPacket packet t heap).
Proof.
  intros [h Hh]. unfold processTCPPacket. rewrite Hh. cbn zeta.
  destruct (messages t !! pcap.Ack h); eauto.
Qed.

Lemma processTCPPacket_heap_le packet t heap t' heap' :
  processTCPPacket packet t heap = Some (t', heap') -> heap_le heap heap'.
Proof.
  intros H. apply processTCPPacket_Some in H as (h & _ & H).
  destruct (messages t !! pcap.Ack h); destruct H as [-> ->].
  - by apply heap_le_alter.
  - eapply heap_le_trans; [apply heap_le_app|by apply heap_le_alter].
Qed.

Lemma readRAWSocket_enqueues_iff_witness :
  c_packets (readRAWSocket scenario_listener (Some second_packet))
  = [second_packet]
  /\ readRAWSocket scenario_listener (Some first_packet) = scenario_listener.
Proof.
  split.
  - apply (proj1 (readRAWSocket_enqueues_iff scenario_listener
                    second_packet)).
    eexists. split; [reflexivity|]. split; [reflexivity|discriminate].
  - apply (proj2 (readRAWSocket_enqueues_iff scenario_listener
                    first_packet)).
    discriminate.
Defined.

Lemma readRAWSocket_cases t next :
  readRAWSocket t next = t
  \/ exists pkt, next = Some pkt /\ wanted t pkt
                 /\ readRAWSocket t next = set_c_packets (send pkt) t.
Proof.
  destruct next as [pkt|]; [|by left].
  assert (Hdec : wanted t pkt \/ readRAWSocket t (Some pkt) = t).
  { unfold wanted, readRAWSocket.
    destruct (List.length (pcap.Headers pkt) <? 2)%nat; [by right|].
    destruct (pcap.Headers pkt !! 1%nat) as [[| | | | |header]|];
      try by right.
    cbn zeta.
    destruct (pcap.DestPort header =? port t) eqn:Hport; [|by right].
    destruct (Z.land (pcap.Flags header) pcap.TCP_PSH =? 0) eqn:Hpsh;
      [by right|].
    left. exists header.
    apply Z.eqb_eq in Hport. apply Z.eqb_neq in Hpsh. auto. }
  destruct Hdec as [Hw|He]; [right|by left].
  exists pkt. auto using readRAWSocket_wanted.
Qed.

(** ** The invariant holds in every reachable state *)

Lemma invariant_start t frames : fresh t -> invariant (start t frames).
Proof.
  intros (Hm & Hp & Hc & Hd).
  split; simpl; try rewrite Hm; try rewrite Hp; try rewrite Hc;
    try rewrite Hd; intros *; try (by rewrite lookup_empty);
    by intros ?%elem_of_nil.
Qed.

Lemma invariant_emit w message m' m emit t' :
  invariant w ->
  heap w !! message = Some m ->
  tcp_message.Ack m' = tcp_message.Ack m ->
  (if emit : bool then set_c_del_message (send message) (listener w)
   else listener w) = t' ->
  invariant {| listener := t'; heap := <[message := m']> (heap w);
               wire := wire w; received := received w |}.
Proof.
  intros [Itab Ipk Idel Imsg Ircv] Hm Hack <-.
  pose proof (heap_le_insert _ _ _ _ Hm Hack) as Hle.
  assert (Halloc : allocated (<[message := m']> (heap w)) message).
  { eapply heap_le_allocated; [done|]. by eapply lookup_lt_Some. }
  split; simpl.
  - intros ack p Hp.
    assert (messages (listener w) !! ack = Some p) as Hp'
      by (by destruct emit).
    destruct (Itab _ _ Hp') as (m0 & Hm0 & <-). by apply Hle.
  - intros packet Hin. apply Ipk. by destruct emit.
  - intros p Hin. destruct emit; simpl in Hin.
    + apply elem_of_app in Hin as [Hin|Hin%list_elem_of_singleton].
      * eapply heap_le_allocated; eauto.
      * by subst.
    + eapply heap_le_allocated; eauto.
  - intros p Hin. eapply heap_le_allocated; [done|].
    apply Imsg. by destruct emit.
  - intros p Hin. eapply heap_le_allocated; eauto.
Qed.

Lemma invariant_step timers w w' :
  invariant w -> step timers w w' -> invariant w'.
Proof.
  intros Hinv Hstep.
  destruct Hstep as
    [w next rest t' Hwire Hread Hcap
    |w message rest t' heap' Hdel Hlisten Hcap
    |w packet rest t' heap' Hpk Hlisten
    |w message m packet rest m' emit t' Hm Hin Happ Ht' Hcap
    |w message m m' emit t' _ Hm Hexp Ht' Hcap
    |w message t' Hrecv].
  - (* readRAWSocket *)
    destruct Hinv as [Itab Ipk Idel Imsg Ircv].
    destruct (readRAWSocket_cases (listener w) next)
      as [He|(pkt & -> & Hw & He)]; rewrite He in Hread; subst t'.
    + by split.
    + split; simpl; try done.
      intros packet [Hin|Hin%list_elem_of_singleton]%elem_of_app; [auto|].
      subst. destruct Hw as (h & Hh & _). by exists h.
  - (* listen, a finished message *)
    destruct Hinv as [Itab Ipk Idel Imsg Ircv].
    simpl in Hlisten.
    destruct (heap w !! message) as [m|] eqn:Hm; [|done].
    simplify_eq. split; simpl.
    + intros ack p [_ Hp]%lookup_delete_Some. auto.
    + done.
    + intros p Hin. apply Idel. rewrite Hdel. by right.
    + intros p [Hin|Hin%list_elem_of_singleton]%elem_of_app; [auto|].
      subst. apply Idel. rewrite Hdel. by left.
    + done.
  - (* listen, a packet *)
    destruct Hinv as [Itab Ipk Idel Imsg Ircv].
    simpl in Hlisten.
    pose proof (processTCPPacket_heap_le _ _ _ _ _ Hlisten) as Hle.
    apply processTCPPacket_Some in Hlisten as (h & Hh & Hcase).
    simpl in Hcase.
    assert (Hrest : forall p, p ∈ rest -> tcp_packet p).
    { intros p Hin. apply Ipk. rewrite Hpk. by right. }
    destruct (messages (listener w) !! pcap.Ack h) as [message|] eqn:Hlk;
      destruct Hcase as [-> ->]; split; simpl;
      try (intros p Hin; eapply heap_le_allocated; eauto; fail);
      try done.
    + intros ack p Hp. destruct (Itab _ _ Hp) as (m0 & Hm0 & <-).
      by apply Hle.
    + intros ack p Hp.
      destruct (decide (pcap.Ack h = ack)) as [<-|Hne].
      * rewrite lookup_insert_eq in Hp. simplify_eq.
        eexists. split.
        { rewrite list_lookup_alter_eq, lookup_app_r by done.
          rewrite Nat.sub_diag. done. }
        done.
      * rewrite lookup_insert_ne in Hp by done.
        destruct (Itab _ _ Hp) as (m0 & Hm0 & <-). by apply Hle.
  - (* a message takes a packet *)
    eapply invariant_emit; eauto.
    by rewrite (append_Ack _ _ _ _ Happ).
  - (* a watchdog fires *)
    eapply invariant_emit; eauto using expire_Ack.
  - (* Receive *)
    destruct Hinv as [Itab Ipk Idel Imsg Ircv].
    unfold Receive in Hrecv.
    destruct (c_messages (listener w)) as [|p rest] eqn:Hc; [done|].
    simplify_eq. split; simpl; try done.
    + intros p0 Hin. apply Imsg. by right.
    + intros p0 [Hin|Hin%list_elem_of_singleton]%elem_of_app; [auto|].
      subst. apply Imsg. by left.
Qed.

Lemma invariant_rtc timers w w' :
  invariant w -> rtc (step timers) w w' -> invariant w'.
Proof.
  intros Hinv Hrtc. induction Hrtc; eauto using invariant_step.
Qed.

Lemma invariant_reachable w : reachable w -> invariant w.
Proof.
  intros (t & frames & Hfresh & Hrtc).
  eapply invariant_rtc; [|done]. by apply invariant_start.
Qed.

(** ** The scenario, step by step *)

Lemma scenario_step_1 timers : step timers scenario scenario_first_read.
Proof.
  eapply (step_readRAWSocket _ scenario); [reflexivity|reflexivity|fits].
Qed.

Lemma scenario_step_2 timers :
  step timers scenario_first_read scenario_second_read.
Proof.
  eapply (step_readRAWSocket _ scenario_first_read);
    [reflexivity|reflexivity|fits].
Qed.

Lemma scenario_step_3 timers :
  step timers scenario_second_read scenario_dispatched.
Proof. by eapply (step_listen_packet _ scenario_second_read). Qed.

Lemma scenario_step_4 timers :
  step timers scenario_dispatched scenario_completed.
Proof.
  eapply (step_message_packet _ scenario_dispatched 0%nat
            _ second_packet [] _ true);
    [reflexivity|reflexivity|reflexivity|reflexivity|fits].
Qed.

Lemma scenario_step_5 timers :
  step timers scenario_completed scenario_evicted.
Proof.
  eapply (step_listen_del _ scenario_completed 0%nat []);
    [reflexivity| |fits].
  simpl. unfold set_messages, set_c_messages; simpl.
  by rewrite delete_singleton_eq.
Qed.

Lemma scenario_step_6 timers :
  step timers scenario_evicted scenario_received.
Proof. by eapply (step_Receive _ scenario_evicted 0%nat). Qed.

Lemma scenario_listener_fresh : fresh scenario_listener.
Proof. by repeat split. Qed.

Lemma scenario_dispatched_reachable : reachable scenario_dispatched.
Proof.
  exists scenario_listener, [Some first_packet; Some second_packet].
  split; [apply scenario_listener_fresh|].
  eapply rtc_l; [apply scenario_step_1|].
  eapply rtc_l; [apply scenario_step_2|].
  eapply rtc_l; [apply scenario_step_3|]. apply rtc_refl.
Qed.

Lemma scenario_completed_reachable : reachable scenario_completed.
Proof.
  destruct scenario_dispatched_reachable as (t & frames & Hfresh & Hrtc).
  exists t, frames. split; [done|].
  eapply rtc_r; [done|apply scenario_step_4].
Qed.

(** ** One reassembly unit per flow key *)

(** C1: in every reachable state each entry of the message table holds
    a unit whose [Ack] is the key it is filed under, so two entries
    never hold units with the same [Ack]; and [processTCPPacket]
    allocates and registers a new unit only when the table has no entry
    for the packet's [Ack], and otherwise leaves the table and the set
    of allocated units as they are and hands the packet to the unit
    found. *)
Theorem one_message_per_flow_key (w : World) :
  reachable w ->
  (forall ack message,
     messages (listener w) !! ack = Some message ->
     exists m, heap w !! message = Some m /\ tcp_message.Ack m = ack)
  /\ (forall ack1 ack2 message1 message2 m1 m2,
        messages (listener w) !! ack1 = Some message1 ->
        messages (listener w) !! ack2 = Some message2 ->
        heap w !! message1 = Some m1 ->
        heap w !! message2 = Some m2 ->
        tcp_message.Ack m1 = tcp_message.Ack m2 ->
        ack1 = ack2 /\ message1 = message2)
  /\ (forall packet h,
        pcap.Headers packet !! 1%nat = Some (pcap.TcpHeader h) ->
        match messages (listener w) !! pcap.Ack h with
        | Some message =>
            processTCPPacket packet (listener w) (heap w)
            = Some (listener w,
                    alter (tcp_message.set_c_packets (send packet))
                      message (heap w))
        | None =>
            exists t' heap',
              processTCPPacket packet (listener w) (heap w)
              = Some (t', heap')
              /\ messages t'
                 = <[pcap.Ack h := List.length (heap w)]>
                     (messages (listener w))
              /\ heap' !! List.length (heap w)
                 = Some (tcp_message.set_c_packets (send packet)
                           (tcp_message.NewTCPMessage (pcap.Ack h)))
              /\ List.length heap' = S (List.length (heap w))
        end).
Proof.
  intros Hreach. pose proof (invariant_reachable _ Hreach) as Hinv.
  split; [apply Hinv|]. split.
  - intros ack1 ack2 message1 message2 m1 m2 H1 H2 Hm1 Hm2 Hack.
    destruct (inv_table _ Hinv _ _ H1) as (m1' & Hm1' & E1).
    destruct (inv_table _ Hinv _ _ H2) as (m2' & Hm2' & E2).
    assert (ack1 = ack2) as -> by congruence.
    split; congruence.
  - intros packet h Hh. unfold processTCPPacket. rewrite Hh. cbn zeta.
    destruct (messages (listener w) !! pcap.Ack h); [done|].
    eexists _, _. split; [done|]. split; [done|]. split.
    + rewrite list_lookup_alter_eq, lookup_app_r by done.
      by rewrite Nat.sub_diag.
    + rewrite length_alter, length_app. simpl. lia.
Qed.

Lemma one_message_per_flow_key_witness :
  reachable scenario_dispatched
  /\ messages (listener scenario_dispatched) !! 42 = Some 0%nat
  /\ (forall ack message,
        messages (listener scenario_dispatched) !! ack = Some message ->
        exists m, heap scenario_dispatched !! message = Some m
                  /\ tcp_message.Ack m = ack).
Proof.
  split; [apply scenario_dispatched_reachable|].
  split; [reflexivity|].
  apply (one_message_per_flow_key scenario_dispatched
           scenario_dispatched_reachable).
Defined.

(** ** Packets on the capture queue *)

(** C9: in every reachable state every packet waiting on the capture
    queue has at least two decoded headers, the second of them a TCP
    header, and [processTCPPacket] does not panic on it, whatever the
    table and the allocated units are by then. *)
Theorem queued_packets_are_tcp (w : World) (packet : pcap.Packet) :
  reachable w ->
  packet ∈ c_packets (listener w) ->
  (2 <= List.length (pcap.Headers packet))%nat
  /\ (exists h, pcap.Headers packet !! 1%nat = Some (pcap.TcpHeader h))
  /\ (forall t heap, is_Some (processTCPPacket packet t heap)).
Proof.
  intros Hreach Hin.
  pose proof (inv_c_packets _ (invariant_reachable _ Hreach) _ Hin) as Htcp.
  split; [|split; [done|]].
  - destruct Htcp as [h Hh]. apply lookup_lt_Some in Hh. lia.
  - intros t heap. by apply processTCPPacket_tcp.
Qed.

Lemma scenario_second_read_reachable : reachable scenario_second_read.
Proof.
  exists scenario_listener, [Some first_packet; Some second_packet].
  split; [apply scenario_listener_fresh|].
  eapply rtc_l; [apply scenario_step_1|].
  eapply rtc_l; [apply scenario_step_2|]. apply rtc_refl.
Qed.

Lemma queued_packets_are_tcp_witness :
  reachable scenario_second_read
  /\ second_packet ∈ c_packets (listener scenario_second_read)
  /\ (2 <= List.length (pcap.Headers second_packet))%nat.
Proof.
  assert (Hin : second_packet ∈ c_packets (listener scenario_second_read))
    by (simpl; apply list_elem_of_here).
  split; [apply scenario_second_read_reachable|]. split; [exact Hin|].
  apply (queued_packets_are_tcp scenario_second_read second_packet
           scenario_second_read_reachable Hin).
Defined.

(** ** Finished messages *)

(** C4: when the dispatcher takes a finished message [message] off
    [c_del_message], the turn of [listen] succeeds, sends [message] on
    [c_messages] (the channel [Receive] reads) and deletes the table
    entry under the message's [Ack]; afterwards no entry of the table
    holds [message]. *)
Theorem listen_delivers_and_evicts (w : World) (message : ptr)
    (rest : list ptr) :
  reachable w ->
  c_del_message (listener w) = message :: rest ->
  exists m t',
    heap w !! message = Some m
    /\ listen (from_c_del_message message)
         (set_c_del_message (fun _ => rest) (listener w)) (heap w)
       = Some (t', heap w)
    /\ c_messages t' = send message (c_messages (listener w))
    /\ messages t' = delete (tcp_message.Ack m) (messages (listener w))
    /\ messages t' !! tcp_message.Ack m = None
    /\ (forall ack, messages t' !! ack <> Some message)
    /\ c_del_message t' = rest
    /\ c_packets t' = c_packets (listener w).
Proof.
  intros Hreach Hdel.
  pose proof (invariant_reachable _ Hreach) as Hinv.
  assert (Halloc : allocated (heap w) message).
  { apply (inv_c_del_message _ Hinv). rewrite Hdel. by left. }
  destruct (lookup_lt_is_Some_2 _ _ Halloc) as [m Hm].
  exists m. eexists. split; [done|]. unfold listen. rewrite Hm.
  split; [done|]. simpl. repeat split; try done.
  - apply lookup_delete_eq.
  - intros ack [Hne Hlk]%lookup_delete_Some.
    destruct (inv_table _ Hinv _ _ Hlk) as (m' & Hm' & E). congruence.
Qed.

Lemma listen_delivers_and_evicts_witness :
  reachable scenario_completed
  /\ exists m t',
       heap scenario_completed !! 0%nat = Some m
       /\ listen (from_c_del_message 0%nat)
            (set_c_del_message (fun _ => [])
               (listener scenario_completed))
            (heap scenario_completed)
          = Some (t', heap scenario_completed)
       /\ c_messages t' = [0%nat]
       /\ messages t' !! 42 = None.
Proof.
  split; [apply scenario_completed_reachable|].
  destruct (listen_delivers_and_evicts scenario_completed 0%nat []
              scenario_completed_reachable eq_refl)
    as (m & t' & Hm & Hl & Hc & Ht & Hn & _).
  exists m, t'. split; [exact Hm|]. split; [exact Hl|].
  split; [exact Hc|].
  simpl in Hm. injection Hm as <-. exact Hn.
Defined.

(** ** The scenario without watchdogs: one run, and where it ends *)

Lemma scenario_next_1 w :
  step false scenario w -> w = scenario_first_read.
Proof. intros H. step_cases H. Qed.

Lemma scenario_next_2 w :
  step false scenario_first_read w -> w = scenario_second_read.
Proof. intros H. step_cases H. Qed.

Lemma scenario_next_3 w :
  step false scenario_second_read w -> w = scenario_dispatched.
Proof. intros H. step_cases H. Qed.

Lemma scenario_next_4 w :
  step false scenario_dispatched w -> w = scenario_completed.
Proof. intros H. step_cases H. Qed.

Lemma scenario_next_5 w :
  step false scenario_completed w -> w = scenario_evicted.
Proof. intros H. step_cases H. Qed.

Lemma scenario_next_6 w :
  step false scenario_evicted w -> w = scenario_received.
Proof. intros H. step_cases H. Qed.

Lemma scenario_next_7 w : ~ step false scenario_received w.
Proof. intros H. step_cases H. Qed.

Lemma scenario_runs w :
  rtc (step false) scenario w -> w ∈ scenario_stages.
Proof.
  revert w. apply rtc_ind_r.
  - by left.
  - intros w w' _ Hstep IH. unfold scenario_stages in IH.
    repeat (apply elem_of_cons in IH as [->|IH]).
    + apply scenario_next_1 in Hstep as ->. set_solver.
    + apply scenario_next_2 in Hstep as ->. set_solver.
    + apply scenario_next_3 in Hstep as ->. set_solver.
    + apply scenario_next_4 in Hstep as ->. set_solver.
    + apply scenario_next_5 in Hstep as ->. set_solver.
    + apply scenario_next_6 in Hstep as ->. set_solver.
    + by apply scenario_next_7 in Hstep.
    + by apply elem_of_nil in IH.
Qed.

Lemma scenario_run_ends w :
  w ∈ scenario_stages -> rtc (step false) w scenario_received.
Proof.
  pose proof (scenario_step_1 false) as H1.
  pose proof (scenario_step_2 false) as H2.
  pose proof (scenario_step_3 false) as H3.
  pose proof (scenario_step_4 false) as H4.
  pose proof (scenario_step_5 false) as H5.
  pose proof (scenario_step_6 false) as H6.
  unfold scenario_stages. intros Hin.
  repeat (apply elem_of_cons in Hin as [->|Hin]);
    [..|by apply elem_of_nil in Hin];
    repeat (first [apply rtc_refl | eapply rtc_l; [eassumption|]]).
Qed.

(** ** The scenario with watchdogs: what no run can do *)

Lemma blank_led_append b : blank_led b -> blank_led (b +:+ second_payload).
Proof.
  intros [->|[rest ->]]; right.
  - by eexists.
  - by exists (rest +:+ second_payload).
Qed.

Lemma blank_led_not_expected b : blank_led b -> b <> expected_buffer.
Proof. by intros [->|[rest ->]]. Qed.

Lemma first_packet_unwanted t : port t = 80 -> ~ wanted t first_packet.
Proof.
  intros _ (header & Hh & _ & Hpsh). simpl in Hh.
  injection Hh as <-. by apply Hpsh.
Qed.

Lemma second_only_start : second_only scenario.
Proof.
  split; simpl.
  - done.
  - intros next Hin.
    apply elem_of_cons in Hin as [->|Hin]; [by left|].
    apply elem_of_cons in Hin as [->|Hin]; [by right|].
    by apply elem_of_nil in Hin.
  - intros p Hin. by apply elem_of_nil in Hin.
  - intros message m Hm. by rewrite lookup_nil in Hm.
Qed.

Lemma second_only_emit w message m m' emit t' :
  second_only w ->
  heap w !! message = Some m ->
  (forall p, p ∈ tcp_message.c_packets m' -> p = second_packet) ->
  blank_led (tcp_message.buffer m') ->
  (if emit : bool then set_c_del_message (send message) (listener w)
   else listener w) = t' ->
  second_only {| listener := t'; heap := <[message := m']> (heap w);
                 wire := wire w; received := received w |}.
Proof.
  intros [Hport Hwire Hq Hheap] Hm Hin Hbuf <-. split; simpl.
  - by destruct emit.
  - done.
  - by destruct emit.
  - intros p m0 Hp.
    destruct (decide (message = p)) as [->|Hne].
    + rewrite list_lookup_insert_eq in Hp by (by eapply lookup_lt_Some).
      by simplify_eq.
    + rewrite list_lookup_insert_ne in Hp by done. eauto.
Qed.

Lemma second_only_step timers w w' :
  second_only w -> step timers w w' -> second_only w'.
Proof.
  intros Hso Hstep.
  destruct Hstep as
    [w next rest t' Hw Hread Hcap
    |w message rest t' heap' Hdel Hlisten Hcap
    |w packet rest t' heap' Hpk Hlisten
    |w message m packet rest m' emit t' Hm Hin Happ Ht' Hcap
    |w message m m' emit t' _ Hm Hexp Ht' Hcap
    |w message t' Hrecv].
  - (* readRAWSocket *)
    destruct Hso as [Hport Hwire Hq Hheap].
    assert (Hrest : forall n, n ∈ rest ->
              n = Some first_packet \/ n = Some second_packet).
    { intros n Hn. apply Hwire. rewrite Hw. by right. }
    destruct (readRAWSocket_cases (listener w) next)
      as [He|(pkt & -> & Hwant & He)]; rewrite He in Hread; subst t'.
    + by split.
    + split; simpl; try done.
      intros p [Hp|Hp%list_elem_of_singleton]%elem_of_app; [auto|].
      subst p. destruct (Hwire (Some pkt)) as [Hf|Hs].
      * rewrite Hw. by left.
      * simplify_eq. by apply first_packet_unwanted in Hwant.
      * by simplify_eq.
  - (* listen, a finished message *)
    destruct Hso as [Hport Hwire Hq Hheap]. simpl in Hlisten.
    destruct (heap w !! message) as [m|]; [|done].
    simplify_eq. by split.
  - (* listen, a packet *)
    destruct Hso as [Hport Hwire Hq Hheap]. simpl in Hlisten.
    assert (Hp : packet = second_packet).
    { apply Hq. rewrite Hpk. by left. }
    assert (Hrest : forall p, p ∈ rest -> p = second_packet).
    { intros p Hin. apply Hq. rewrite Hpk. by right. }
    apply processTCPPacket_Some in Hlisten as (h & Hh & Hcase).
    simpl in Hcase.
    assert (Hpush : forall m,
              (forall p, p ∈ tcp_message.c_packets m -> p = second_packet)
              /\ blank_led (tcp_message.buffer m) ->
              (forall p, p ∈ tcp_message.c_packets
                             (tcp_message.set_c_packets (send packet) m) ->
                         p = second_packet)
              /\ blank_led (tcp_message.buffer
                              (tcp_message.set_c_packets (send packet) m))).
    { intros m [Hi Hb]. split; [|done]. simpl.
      intros p [Hin|Hin%list_elem_of_singleton]%elem_of_app; [auto|].
      congruence. }
    assert (Halter : forall i (heap0 : list tcp_message.TCPMessage),
              (forall message m, heap0 !! message = Some m ->
                 (forall p, p ∈ tcp_message.c_packets m -> p = second_packet)
                 /\ blank_led (tcp_message.buffer m)) ->
              forall message m,
                alter (tcp_message.set_c_packets (send packet)) i heap0
                  !! message = Some m ->
                (forall p, p ∈ tcp_message.c_packets m -> p = second_packet)
                /\ blank_led (tcp_message.buffer m)).
    { intros i heap0 Hall message m Hlk.
      destruct (decide (i = message)) as [->|Hne].
      - rewrite list_lookup_alter_eq in Hlk.
        destruct (heap0 !! message) as [m0|] eqn:H0; [|done].
        simpl in Hlk. simplify_eq. apply Hpush. eauto.
      - rewrite list_lookup_alter_ne in Hlk by done. eauto. }
    destruct (messages (listener w) !! pcap.Ack h);
      destruct Hcase as [-> ->]; split; simpl; try done.
    + by apply Halter.
    + apply Halter. intros message m Hlk.
      apply lookup_app_Some in Hlk as [Hlk|[_ Hlk]]; [eauto|].
      apply list_lookup_singleton_Some in Hlk as [_ <-].
      split; [by intros p Hin%elem_of_nil|by left].
  - (* a message takes a packet *)
    destruct (so_heap _ Hso _ _ Hm) as [Hinbox Hbuf].
    assert (Hp : packet = second_packet).
    { apply Hinbox. rewrite Hin. by left. }
    assert (Hm' : (forall p, p ∈ tcp_message.c_packets m' ->
                             p = second_packet)
                  /\ blank_led (tcp_message.buffer m')).
    { unfold tcp_message.append in Happ.
      destruct (_ && _); simplify_eq; simpl;
        (split; [intros p Hp; apply Hinbox; rewrite Hin; by right|]);
        by apply blank_led_append. }
    destruct Hm'. by eapply second_only_emit.
  - (* a watchdog fires *)
    destruct (so_heap _ Hso _ _ Hm) as [Hinbox Hbuf].
    unfold tcp_message.expire in Hexp.
    destruct (bool_decide _); simplify_eq;
      [eapply (second_only_emit _ _ _ _ true)
      |eapply (second_only_emit _ _ _ _ false)]; simpl; eauto.
  - (* Receive *)
    destruct Hso as [Hport Hwire Hq Hheap]. unfold Receive in Hrecv.
    destruct (c_messages (listener w)); [done|]. simplify_eq. by split.
Qed.

Lemma second_only_rtc timers w :
  rtc (step timers) scenario w -> second_only w.
Proof.
  intros Hrtc.
  assert (Hgen : forall w0, second_only w0 -> rtc (step timers) w0 w ->
                            second_only w).
  { intros w0 H0 Hr. induction Hr; eauto using second_only_step. }
  eapply Hgen; [apply second_only_start|done].
Qed.

(** ** The two-packet scenario *)

Lemma scenario_listener_started :
  exists ops,
    RAWTCPListen "eth0" eth0_lib "eth0" 80 = (ops, Done scenario_listener).
Proof. eexists. vm_compute. reflexivity. Qed.

(** C3, as the code has it: of the two captured packets of flow 42 the
    first, without the push flag, is dropped by [readRAWSocket]; when no
    watchdog fires, every run can be continued until [Receive] has
    returned one message, and whatever [Receive] returns is the unit of
    flow 42 holding the second payload only, with status Completed. *)
Theorem scenario_delivers_second_payload :
  readRAWSocket scenario_listener (Some first_packet) = scenario_listener
  /\ (forall w,
        rtc (step false) scenario w ->
        rtc (step false) w scenario_received
        /\ forall message,
             message ∈ received w ->
             exists m,
               heap w !! message = Some m
               /\ tcp_message.Ack m = 42
               /\ tcp_message.buffer m = second_payload
               /\ tcp_message.status m = tcp_message.Completed)
  /\ received scenario_received = [0%nat].
Proof.
  split; [reflexivity|]. split; [|reflexivity].
  intros w Hrun. apply scenario_runs in Hrun.
  split; [by apply scenario_run_ends|].
  intros message Hin. unfold scenario_stages in Hrun.
  repeat (apply elem_of_cons in Hrun as [->|Hrun]);
    try (by apply elem_of_nil in Hin); [|by apply elem_of_nil in Hrun].
  simpl in Hin. apply list_elem_of_singleton in Hin as ->.
  by eexists.
Qed.

Lemma scenario_delivers_second_payload_witness :
  rtc (step false) scenario scenario_received
  /\ exists m,
       heap scenario_received !! 0%nat = Some m
       /\ tcp_message.buffer m = second_payload
       /\ tcp_message.status m = tcp_message.Completed.
Proof.
  destruct scenario_delivers_second_payload as (_ & Hruns & _).
  destruct (Hruns scenario (rtc_refl _ _)) as [Hend _].
  destruct (Hruns scenario_received Hend) as [_ Hgot].
  split; [exact Hend|].
  destruct (Hgot 0%nat (list_elem_of_here _ _)) as (m & Hm & _ & Hb & Hs).
  exists m. auto.
Defined.

(** C3, as the specification states it, fails: the run without
    watchdogs ends with [Receive] returning a message whose buffer is
    the second payload alone; and in no run at all, with or without
    watchdogs, does any message ever hold the expected buffer. *)
Lemma scenario_as_specified_fails :
  ~ scenario_as_specified
  /\ (forall timers w message m,
        rtc (step timers) scenario w ->
        heap w !! message = Some m ->
        tcp_message.buffer m <> expected_buffer).
Proof.
  split.
  - intros Hspec.
    assert (Hrun : rtc (step false) scenario scenario_received).
    { apply scenario_run_ends. by left. }
    destruct (Hspec _ Hrun 0%nat
                (unit42 [] second_payload tcp_message.Completed))
      as [Hbuf _]; [by left|reflexivity|].
    discriminate Hbuf.
  - intros timers w message m Hrun Hm.
    apply blank_led_not_expected.
    by apply (so_heap _ (second_only_rtc _ _ Hrun) _ _ Hm).
Qed.

(** ** Disposition of a reassembly unit *)

Lemma react_terminal ev m :
  tcp_message.status m <> tcp_message.Building ->
  exists m', react ev m = (m', false)
             /\ tcp_message.status m' = tcp_message.status m.
Proof.
  intros Hst. destruct ev as [packet|]; simpl.
  - unfold tcp_message.append.
    rewrite (bool_decide_eq_false_2 _ Hst), andb_false_r. by eexists.
  - unfold tcp_message.expire.
    rewrite (bool_decide_eq_false_2 _ Hst). by eexists.
Qed.

Lemma react_building ev m :
  tcp_message.status m = tcp_message.Building ->
  exists m', react ev m = (m', decisive ev)
             /\ tcp_message.status m' = disposition [ev].
Proof.
  intros Hst. unfold disposition. destruct ev as [packet|]; simpl.
  - unfold tcp_message.append.
    rewrite (bool_decide_eq_true_2 _ Hst), andb_true_r.
    destruct (tcp_message.has_push packet); by eexists.
  - unfold tcp_message.expire.
    rewrite (bool_decide_eq_true_2 _ Hst). by eexists.
Qed.

Lemma lifetime_terminal evs m :
  tcp_message.status m <> tcp_message.Building ->
  (lifetime evs m).2 = 0%nat
  /\ tcp_message.status (lifetime evs m).1 = tcp_message.status m.
Proof.
  revert m. induction evs as [|ev evs IH]; intros m Hst; [done|].
  simpl. destruct (react_terminal ev m Hst) as (m' & -> & Hst').
  rewrite <- Hst' in Hst. destruct (IH m' Hst) as [Hn Hs].
  destruct (lifetime evs m') as [m'' n]. simpl in *.
  split; [lia|congruence].
Qed.

Lemma lifetime_building evs m :
  tcp_message.status m = tcp_message.Building ->
  (lifetime evs m).2
  = (if List.existsb decisive evs then 1 else 0)%nat
  /\ tcp_message.status (lifetime evs m).1 = disposition evs.
Proof.
  revert m. induction evs as [|ev evs IH]; intros m Hst; [done|].
  simpl. destruct (react_building ev m Hst) as (m' & -> & Hst').
  unfold disposition in *. simpl in *.
  destruct (decisive ev) eqn:Hdec.
  - assert (Hterm : tcp_message.status m' <> tcp_message.Building).
    { rewrite Hst'. by destruct ev. }
    destruct (lifetime_terminal evs m' Hterm) as [Hn Hs].
    destruct (lifetime evs m') as [m'' n]. simpl in *.
    split; [lia|congruence].
  - destruct (IH m' Hst') as [Hn Hs].
    destruct (lifetime evs m') as [m'' n]. simpl in *. done.
Qed.

Lemma lifetime_app evs1 evs2 m :
  lifetime (evs1 ++ evs2) m
  = let '(m1, n1) := lifetime evs1 m in
    let '(m2, n2) := lifetime evs2 m1 in
    (m2, (n1 + n2)%nat).
Proof.
  revert m. induction evs1 as [|ev evs1 IH]; intros m; simpl.
  - by destruct (lifetime evs2 m).
  - destruct (react ev m) as [m' emit]. rewrite IH.
    destruct (lifetime evs1 m') as [m1 n1].
    destruct (lifetime evs2 m1) as [m2 n2]. f_equal. lia.
Qed.

(** C5: over any lifetime of a new [TCPMessage] the message emits
    itself at most once, and exactly once as soon as a push-flagged
    packet was appended or the watchdog fired; its status is the one
    given by the first of these happenings, whatever follows; and a
    message that has left Building keeps its status and emits nothing
    more. *)
Theorem disposition_exactly_once (ack : Z) (evs : list happening) :
  let new := tcp_message.NewTCPMessage ack in
  ((lifetime evs new).2 <= 1)%nat
  /\ ((lifetime evs new).2 = 1%nat <-> exists ev, ev ∈ evs /\ decisive ev = true)
  /\ tcp_message.status (lifetime evs new).1 = disposition evs
  /\ (forall before after,
        evs = before ++ after ->
        tcp_message.status (lifetime before new).1 <> tcp_message.Building ->
        (lifetime after (lifetime before new).1).2 = 0%nat
        /\ tcp_message.status (lifetime evs new).1
           = tcp_message.status (lifetime before new).1).
Proof.
  cbn zeta.
  destruct (lifetime_building evs (tcp_message.NewTCPMessage ack) eq_refl)
    as [Hn Hs].
  split; [rewrite Hn; destruct (existsb _ _); lia|].
  split; [|split; [done|]].
  - rewrite Hn. split.
    + destruct (existsb decisive evs) eqn:Hex; [|done]. intros _.
      apply existsb_exists in Hex as (ev & Hin & Hdec).
      exists ev. by rewrite list_elem_of_In.
    + intros (ev & Hin & Hdec).
      assert (Hex : existsb decisive evs = true).
      { apply existsb_exists. exists ev. by rewrite <- list_elem_of_In. }
      by rewrite Hex.
  - intros before after -> Hterm.
    pose proof (lifetime_app before after (tcp_message.NewTCPMessage ack))
      as Happ.
    destruct (lifetime_terminal after _ Hterm) as [Hn' Hs'].
    destruct (lifetime before (tcp_message.NewTCPMessage ack)) as [m1 n1].
    simpl in *. destruct (lifetime after m1) as [m2 n2].
    rewrite Happ. done.
Qed.

(** ** Start-up *)

Section StartupFacts.

Variable Settings_Device : string.
Variable lib : pcap.Library.

Lemma find_networkInterface_absent devices :
  (forall d, d ∈ devices -> pcap.Name d <> Settings_Device) ->
  find_networkInterface Settings_Device devices = "".
Proof.
  induction devices as [|device devices IH]; intros Hall; [done|].
  simpl.
  destruct (String.eqb_spec (pcap.Name device) Settings_Device) as [He|_].
  - exfalso. by apply (Hall device); [left|].
  - apply IH. intros d Hd. apply Hall. by right.
Qed.

Lemma find_networkInterface_found devices :
  find_networkInterface Settings_Device devices <> "" ->
  find_networkInterface Settings_Device devices = Settings_Device.
Proof.
  induction devices as [|device devices IH]; [done|]. simpl.
  by destruct (String.eqb_spec (pcap.Name device) Settings_Device).
Qed.

Lemma startSniffer_set_device d t :
  startSniffer Settings_Device lib (set_device d t)
  = map_outcome (set_device d) (startSniffer Settings_Device lib t).
Proof.
  unfold startSniffer, map_outcome, Findalldevs, Openlive, Setfilter,
    filter_expression, log_Fatal, mbind, proc_bind, mret, proc_ret.
  simpl.
  destruct (pcap.Findalldevs lib) as [devices [e|]]; [done|].
  destruct (String.eqb _ ""); [done|].
  destruct (pcap.Openlive lib _ _ _ _) as [h err].
  destruct (pcap.Setfilter lib h _) as [ferr|]; [|done].
  destruct err; done.
Qed.

End StartupFacts.

(** [startSniffer], run to its end. *)
Lemma startSniffer_runs Settings_Device lib t :
  startSniffer Settings_Device lib t
  = match pcap.Findalldevs lib with
    | (_, Some e) =>
        ([call_Findalldevs], Fatal ("Error while getting device list" +:+ e))
    | (devices, None) =>
        let networkInterface :=
          find_networkInterface Settings_Device devices in
        if String.eqb networkInterface ""
        then ([call_Findalldevs],
              Fatal ("Could not find network interface" +:+ Settings_Device))
        else
          let '(h, err) :=
            pcap.Openlive lib networkInterface 4026 true 0 in
          ([call_Findalldevs; call_Openlive networkInterface 4026 true 0;
            call_Setfilter h (filter_expression t)],
           match pcap.Setfilter lib h (filter_expression t) with
           | pcap.Panics => Panic
           | pcap.Returns _ =>
               match err with
               | Some e => Fatal ("Error while trying to listen" +:+ e)
               | None => Done (set_sniffer h t)
               end
           end)
    end.
Proof.
  unfold startSniffer, Findalldevs, Openlive, Setfilter, log_Fatal,
    mbind, proc_bind, mret, proc_ret.
  simpl.
  destruct (pcap.Findalldevs lib) as [devices [e|]]; [done|].
  destruct (String.eqb _ ""); [done|].
  destruct (pcap.Openlive lib _ _ _ _) as [h err].
  destruct (pcap.Setfilter lib h _) as [ferr|]; [|done].
  destruct err; done.
Qed.

Lemma RAWTCPListen_startSniffer Settings_Device lib device port :
  RAWTCPListen Settings_Device lib device port
  = startSniffer Settings_Device lib
      {| messages := ∅; c_packets := []; c_messages := [];
         sniffer := None; c_del_message := [];
         device := device; port := port |}.
Proof.
  unfold RAWTCPListen, mbind, proc_bind, mret, proc_ret.
  destruct (startSniffer _ _ _) as [ops [t| |]]; [|done..].
  by rewrite app_nil_r.
Qed.

(** C6: when no enumerated device bears the configured name
    ([Settings.Device]), [RAWTCPListen] ends in [log.Fatal] with a
    diagnostic, having called nothing of the capture library but
    [Findalldevs]: no handle is opened, no loop is started, and the
    process has no running state in which a message could be received. *)
Theorem unknown_device_is_fatal (Settings_Device : string)
    (lib : pcap.Library) (device : string) (port : Z)
    (frames : list (option pcap.Packet)) :
  (forall d, d ∈ (pcap.Findalldevs lib).1 -> pcap.Name d <> Settings_Device) ->
  RAWTCPListen Settings_Device lib device port
  = ([call_Findalldevs],
     Fatal match (pcap.Findalldevs lib).2 with
           | Some e => "Error while getting device list" +:+ e
           | None => "Could not find network interface" +:+ Settings_Device
           end)
  /\ (forall w, ~ running Settings_Device lib device port frames w).
Proof.
  intros Habsent.
  assert (Hfatal : RAWTCPListen Settings_Device lib device port
    = ([call_Findalldevs],
       Fatal match (pcap.Findalldevs lib).2 with
             | Some e => "Error while getting device list" +:+ e
             | None => "Could not find network interface"
                       +:+ Settings_Device
             end)).
  { rewrite RAWTCPListen_startSniffer, startSniffer_runs.
    destruct (pcap.Findalldevs lib) as [devices [e|]]; [done|].
    simpl in *. by rewrite (find_networkInterface_absent _ _ Habsent). }
  split; [done|].
  intros w (ops & t & Hdone & _). congruence.
Qed.

Lemma unknown_device_is_fatal_witness :
  RAWTCPListen "eth1" eth0_lib "eth1" 80
  = ([call_Findalldevs], Fatal "Could not find network interfaceeth1").
Proof.
  refine (proj1 (unknown_device_is_fatal "eth1" eth0_lib "eth1" 80 [] _)).
  intros d Hd. simpl in Hd.
  apply elem_of_cons in Hd as [->|Hd]; [discriminate|].
  apply elem_of_cons in Hd as [->|Hd]; [discriminate|].
  by apply elem_of_nil in Hd.
Defined.

(** C10: the [device] argument of [RAWTCPListen] only ends up in the
    field [device]: for two values of it the same calls are made with
    the same arguments, the run ends the same way (the same fatal
    diagnostic, the same panic, or success), and on success the two
    listeners differ in that field at most. *)
Theorem device_argument_unused (Settings_Device : string)
    (lib : pcap.Library) (device1 device2 : string) (port : Z) :
  RAWTCPListen Settings_Device lib device2 port
  = map_outcome (set_device device2)
      (RAWTCPListen Settings_Device lib device1 port)
  /\ (RAWTCPListen Settings_Device lib device2 port).1
     = (RAWTCPListen Settings_Device lib device1 port).1
  /\ match (RAWTCPListen Settings_Device lib device1 port).2,
           (RAWTCPListen Settings_Device lib device2 port).2 with
     | Done t1, Done t2 => t2 = set_device device2 t1
     | Fatal diag1, Fatal diag2 => diag1 = diag2
     | Panic, Panic => True
     | _, _ => False
     end.
Proof.
  assert (Heq : RAWTCPListen Settings_Device lib device2 port
                = map_outcome (set_device device2)
                    (RAWTCPListen Settings_Device lib device1 port)).
  { rewrite !RAWTCPListen_startSniffer.
    by rewrite <- startSniffer_set_device. }
  split; [done|]. rewrite Heq.
  unfold map_outcome, mbind, proc_bind, mret, proc_ret.
  destruct (RAWTCPListen Settings_Device lib device1 port)
    as [ops [t| |]]; simpl; [|done..].
  by rewrite app_nil_r.
Qed.

(** C8, on the code: when [Openlive] fails, [startSniffer] still calls
    [Setfilter] on the handle that [Openlive] returned, before it looks
    at the error; the run then ends in the panic of that call when the
    library panics on the handle, and only otherwise in the diagnostic. *)
Theorem open_failure_still_sets_filter (Settings_Device : string)
    (lib : pcap.Library) (t : RAWTCPListener) (h : option pcap.Pcap)
    (e : string) :
  (pcap.Findalldevs lib).2 = None ->
  find_networkInterface Settings_Device (pcap.Findalldevs lib).1 <> "" ->
  pcap.Openlive lib Settings_Device 4026 true 0 = (h, Some e) ->
  startSniffer Settings_Device lib t
  = ([call_Findalldevs; call_Openlive Settings_Device 4026 true 0;
      call_Setfilter h (filter_expression t)],
     match pcap.Setfilter lib h (filter_expression t) with
     | pcap.Panics => Panic
     | pcap.Returns _ => Fatal ("Error while trying to listen" +:+ e)
     end).
Proof.
  intros Herr Hfound Hopen. rewrite startSniffer_runs.
  pose proof (find_networkInterface_found _ _ Hfound) as Hname.
  destruct (pcap.Findalldevs lib) as [devices err]. simpl in *. subst err.
  rewrite Hname in *.
  destruct (String.eqb_spec Settings_Device "") as [He|_]; [done|].
  by rewrite Hopen.
Qed.

Lemma open_failure_still_sets_filter_witness :
  startSniffer "eth0" no_permission_lib scenario_listener
  = ([call_Findalldevs; call_Openlive "eth0" 4026 true 0;
      call_Setfilter None "tcp dst port P"],
     Panic).
Proof.
  refine (open_failure_still_sets_filter "eth0" no_permission_lib
            scenario_listener None _ eq_refl _ eq_refl).
  discriminate.
Defined.

Lemma disposition_exactly_once_witness :
  let evs := [packet_arrives first_packet; watchdog_fires;
              packet_arrives second_packet] in
  (lifetime evs (tcp_message.NewTCPMessage 7)).2 = 1%nat
  /\ tcp_message.status (lifetime evs (tcp_message.NewTCPMessage 7)).1
     = tcp_message.Expired.
Proof.
  cbn zeta.
  destruct (disposition_exactly_once 7
              [packet_arrives first_packet; watchdog_fires;
               packet_arrives second_packet]) as (_ & Honce & Hst & _).
  split; [|exact Hst].
  apply Honce. exists watchdog_fires.
  split; [|reflexivity]. apply list_elem_of_further, list_elem_of_here.
Defined.

(** ** The filter expression *)

Lemma decimal_bytes p : bytes_at_most 57 (decimal p).
Proof.
  assert (Huint : forall d,
            bytes_at_most 57 (NilEmpty.string_of_uint d)).
  { induction d; simpl; try done; (split; [by vm_compute|done]). }
  unfold decimal. destruct (Z.to_int p) as [d|d]; simpl; [done|].
  split; [by vm_compute|done].
Qed.

Lemma byte_code b : 0 <= b < 256 -> N_of_ascii (byte b) = Z.to_N b.
Proof. intros Hb. unfold byte. apply N_ascii_embedding. lia. Qed.

Lemma lead_byte_high hi x :
  hi ∈ [0xC0; 0xE0; 0xF0] -> 0 <= x < 32 ->
  (192 <= N_of_ascii (byte (Z.lor hi x)))%N.
Proof.
  intros Hhi Hx.
  assert (Hall : forallb (fun hi =>
            forallb (fun x => (192 <=? N_of_ascii (byte (Z.lor hi x)))%N)
              (seqZ 0 32)) [0xC0; 0xE0; 0xF0] = true) by (by vm_compute).
  rewrite forallb_forall in Hall.
  specialize (Hall hi). rewrite <- list_elem_of_In in Hall.
  specialize (Hall Hhi). rewrite forallb_forall in Hall.
  specialize (Hall x). rewrite <- list_elem_of_In, elem_of_seqZ in Hall.
  apply N.leb_le, Hall. lia.
Qed.

Lemma multi_byte_lead i :
  ~ (0 <= i < 0x80) ->
  exists c rest,
    go_string_of_int i = String c rest /\ (192 <= N_of_ascii c)%N.
Proof.
  intros Hout. unfold go_string_of_int.
  destruct ((i <? 0) || (0x10FFFF <? i)
            || ((0xD800 <=? i) && (i <=? 0xDFFF))) eqn:Hbad.
  { eexists _, _. split; [reflexivity|]. by vm_compute. }
  apply orb_false_elim in Hbad as [Hbad _].
  apply orb_false_elim in Hbad as [Hneg Hbig].
  apply Z.ltb_ge in Hneg, Hbig.
  destruct (i <? 0x80) eqn:H1; [apply Z.ltb_lt in H1; lia|].
  destruct (i <? 0x800) eqn:H2; [|destruct (i <? 0x10000) eqn:H3].
  - apply Z.ltb_lt in H2. eexists _, _. split; [reflexivity|].
    apply lead_byte_high; [set_solver|].
    rewrite Z.shiftr_div_pow2 by lia.
    split; [apply Z.div_pos; lia|apply Z.div_lt_upper_bound; lia].
  - apply Z.ltb_lt in H3. eexists _, _. split; [reflexivity|].
    apply lead_byte_high; [set_solver|].
    rewrite Z.shiftr_div_pow2 by lia.
    split; [apply Z.div_pos; lia|apply Z.div_lt_upper_bound; lia].
  - eexists _, _. split; [reflexivity|].
    apply lead_byte_high; [set_solver|].
    rewrite Z.shiftr_div_pow2 by lia.
    split; [apply Z.div_pos; lia|apply Z.div_lt_upper_bound; lia].
Qed.

Lemma go_string_of_int_not_decimal i : go_string_of_int i <> decimal i.
Proof.
  destruct (decide (0 <= i < 0x80)) as [Hin|Hout].
  - assert (Hall : forallb (fun i =>
              negb (String.eqb (go_string_of_int i) (decimal i)))
              (seqZ 0 0x80) = true) by (by vm_compute).
    rewrite forallb_forall in Hall. specialize (Hall i).
    rewrite <- list_elem_of_In, elem_of_seqZ in Hall.
    intros Heq. apply String.eqb_eq in Heq.
    rewrite Heq in Hall. simpl in Hall.
    assert (false = true) by (apply Hall; lia). done.
  - destruct (multi_byte_lead i Hout) as (c & rest & Hgo & Hc).
    intros Heq. pose proof (decimal_bytes i) as Hdec.
    rewrite <- Heq, Hgo in Hdec. simpl in Hdec. lia.
Qed.

(** C7, on the code: the expression handed to [Setfilter] is
    "tcp dst port " followed by the UTF-8 encoding of the code point
    [port], not by the decimal rendering of [port]: for port 80 it is
    "tcp dst port P", and for no port at all is it the expression the
    specification asks for. *)
Theorem filter_expression_not_decimal :
  filter_expression scenario_listener = "tcp dst port P"
  /\ specified_filter 80 = "tcp dst port 80"
  /\ (forall t, filter_expression t <> specified_filter (port t)).
Proof.
  split; [reflexivity|]. split; [reflexivity|].
  intros t. unfold filter_expression, specified_filter. simpl.
  intros Heq. simplify_eq. by apply go_string_of_int_not_decimal in Heq.
Qed.

(** * Further properties of the listener *)

(** ** The capture loop over many frames *)

Lemma wantedb_wanted t pkt : wantedb t pkt = true <-> wanted t pkt.
Proof.
  unfold wantedb, wanted. split.
  - destruct (pcap.Headers pkt !! 1%nat) as [[| | | | |header]|];
      try done.
    intros [Hport Hpsh%negb_true_iff]%andb_true_iff.
    exists header. apply Z.eqb_eq in Hport. apply Z.eqb_neq in Hpsh. auto.
  - intros (header & -> & Hport & Hpsh).
    apply Z.eqb_eq in Hport. apply Z.eqb_neq in Hpsh.
    by rewrite Hport, Hpsh.
Qed.

Lemma readRAWSocket_wantedb t pkt :
  readRAWSocket t (Some pkt)
  = if wantedb t pkt then set_c_packets (send pkt) t else t.
Proof.
  destruct (wantedb t pkt) eqn:Hw.
  - by apply readRAWSocket_wanted, wantedb_wanted.
  - apply readRAWSocket_unwanted. rewrite <- wantedb_wanted. congruence.
Qed.

(** X1: the capture loop keeps the capture order and touches nothing
    but the capture queue: after any number of turns the queue is the
    old queue followed by those frames, in the order captured, whose
    second header is a TCP header with the configured port and the push
    flag; nil frames are skipped. *)
Theorem capture_is_filter (t : RAWTCPListener)
    (frames : list (option pcap.Packet)) :
  capture t frames
  = set_c_packets
      (fun queue => queue ++ List.filter (wantedb t) (omap id frames)) t
  /\ (forall pkt,
        pkt ∈ List.filter (wantedb t) (omap id frames) <->
        Some pkt ∈ frames /\ wanted t pkt).
Proof.
  split.
  - unfold capture. revert t.
    induction frames as [|[pkt|] frames IH]; intros t.
    + destruct t. unfold set_c_packets. simpl. by rewrite app_nil_r.
    + change (foldl readRAWSocket (readRAWSocket t (Some pkt)) frames
              = set_c_packets
                  (fun queue =>
                     queue ++ List.filter (wantedb t)
                                (pkt :: omap id frames)) t).
      rewrite IH, readRAWSocket_wantedb.
      assert (Hsame : forall t', port t' = port t ->
                wantedb t' = wantedb t).
      { intros t' Hp. unfold wantedb. by rewrite Hp. }
      cbn [List.filter]. destruct (wantedb t pkt) eqn:Hw.
      * rewrite (Hsame (set_c_packets (send pkt) t)) by done.
        unfold set_c_packets, send. simpl. by rewrite <- app_assoc.
      * done.
    + change (foldl readRAWSocket (readRAWSocket t None) frames
              = set_c_packets
                  (fun queue =>
                     queue ++ List.filter (wantedb t) (omap id frames)) t).
      by rewrite IH.
  - intros pkt. rewrite list_elem_of_In, filter_In, <- list_elem_of_In.
    rewrite wantedb_wanted, list_elem_of_omap. split.
    + intros [([p|] & Hin & Hid) Hw]; simplify_eq/=. done.
    + intros [Hin Hw]. split; [|done]. by exists (Some pkt).
Qed.

(** ** Dispatching *)

(** X2: [processTCPPacket] panics exactly on the packets whose second
    decoded header is missing or is no TCP header, whatever the table
    and the allocated units are. *)
Theorem processTCPPacket_panics_iff (packet : pcap.Packet)
    (t : RAWTCPListener) (heap : list tcp_message.TCPMessage) :
  (processTCPPacket packet t heap = None <-> ~ tcp_packet packet)
  /\ ((List.length (pcap.Headers packet) < 2)%nat ->
      processTCPPacket packet t heap = None).
Proof.
  assert (Hiff : processTCPPacket packet t heap = None
                 <-> ~ tcp_packet packet).
  { split.
    - intros Hnone Htcp.
      destruct (processTCPPacket_tcp packet t heap Htcp) as [r Hr].
      congruence.
    - intros Hn. unfold processTCPPacket.
      destruct (pcap.Headers packet !! 1%nat) as [[| | | | |h]|] eqn:Hh;
        try done.
      exfalso. apply Hn. by exists h. }
  split; [done|].
  intros Hlen. apply Hiff. intros [h Hh].
  apply lookup_lt_Some in Hh. lia.
Qed.

Lemma lookup_alter_other {A} (f : A -> A) (i j : nat) (l : list A) :
  i <> j -> alter f i l !! j = l !! j.
Proof. intros Hne. by rewrite list_lookup_alter_ne. Qed.

(** X3: what [processTCPPacket] leaves alone.  When it returns, the
    table has an entry for the packet's [Ack] and every other entry is
    as before; every allocated unit but the one under that entry is as
    before; the three channels of the listener are untouched. *)
Theorem processTCPPacket_frame (packet : pcap.Packet) (t t' : RAWTCPListener)
    (heap heap' : list tcp_message.TCPMessage) :
  processTCPPacket packet t heap = Some (t', heap') ->
  exists h message,
    pcap.Headers packet !! 1%nat = Some (pcap.TcpHeader h)
    /\ messages t' !! pcap.Ack h = Some message
    /\ (forall ack, ack <> pcap.Ack h ->
          messages t' !! ack = messages t !! ack)
    /\ (forall other, other <> message -> heap' !! other = heap !! other)
    /\ c_packets t' = c_packets t
    /\ c_messages t' = c_messages t
    /\ c_del_message t' = c_del_message t.
Proof.
  intros H. apply processTCPPacket_Some in H as (h & Hh & Hcase).
  exists h.
  destruct (messages t !! pcap.Ack h) as [message|] eqn:Hlk;
    destruct Hcase as [-> ->].
  - exists message. repeat split; try done.
    intros other Hne. by apply lookup_alter_other.
  - exists (List.length heap). simpl. repeat split; try done.
    + apply lookup_insert_eq.
    + intros ack Hne. by apply lookup_insert_ne.
    + intros other Hne. rewrite lookup_alter_other by done.
      destruct (decide (other < List.length heap)%nat) as [Hlt|Hge].
      * by apply lookup_app_l.
      * rewrite (lookup_ge_None_2 heap) by lia.
        apply lookup_ge_None_2. rewrite length_app. simpl. lia.
Qed.

Lemma processTCPPacket_frame_witness :
  exists h message,
    pcap.Headers second_packet !! 1%nat = Some (pcap.TcpHeader h)
    /\ messages (listener scenario_dispatched) !! pcap.Ack h = Some message
    /\ c_packets (listener scenario_dispatched) = [].
Proof.
  destruct (processTCPPacket_frame second_packet
              (set_c_packets (fun _ => []) (listener scenario_second_read))
              (listener scenario_dispatched) [] (heap scenario_dispatched)
              eq_refl)
    as (h & message & Hh & Hm & _ & _ & Hq & _).
  exists h, message. split; [exact Hh|]. split; [exact Hm|]. exact Hq.
Defined.

Lemma set_c_packets_id (m : tcp_message.TCPMessage) :
  tcp_message.set_c_packets (fun queue => queue ++ []) m = m.
Proof.
  destruct m. unfold tcp_message.set_c_packets. simpl.
  by rewrite app_nil_r.
Qed.

Lemma dispatch_known ack packets t heap message :
  Forall (of_flow ack) packets ->
  messages t !! ack = Some message ->
  dispatch packets t heap
  = Some (t, alter (tcp_message.set_c_packets
                      (fun queue => queue ++ packets)) message heap).
Proof.
  intros Hall Hlk. revert heap.
  induction Hall as [|packet packets (h & Hh & Hack) _ IH]; intros heap.
  - simpl. f_equal. f_equal. symmetry. apply list_alter_id.
    intros m. apply set_c_packets_id.
  - simpl. unfold processTCPPacket. rewrite Hh. cbn zeta.
    rewrite Hack, Hlk, IH. f_equal. f_equal.
    rewrite list_alter_alter_eq. apply list_alter_ext; [|done].
    intros m _. unfold tcp_message.set_c_packets, send. simpl.
    by rewrite <- app_assoc.
Qed.

(** X4: packets of one flow, dispatched in a row, all end up in one
    unit, in the order dispatched.  With no entry for the flow the
    first packet allocates the unit at the end of the allocated ones and
    registers it; with an entry, nothing is allocated and nothing is
    registered. *)
Theorem dispatch_one_flow (ack : Z) (packets : list pcap.Packet)
    (t : RAWTCPListener) (heap : list tcp_message.TCPMessage) :
  Forall (of_flow ack) packets ->
  match messages t !! ack with
  | Some message =>
      dispatch packets t heap
      = Some (t, alter (tcp_message.set_c_packets
                          (fun queue => queue ++ packets)) message heap)
  | None =>
      packets <> [] ->
      dispatch packets t heap
      = Some (set_messages <[ack := List.length heap]> t,
              heap ++ [tcp_message.set_c_packets (fun _ => packets)
                         (tcp_message.NewTCPMessage ack)])
  end.
Proof.
  intros Hall.
  destruct (messages t !! ack) as [message|] eqn:Hlk.
  - by apply (dispatch_known ack).
  - intros Hne. destruct Hall as [|packet packets (h & Hh & Hack) Hall];
      [done|].
    simpl. unfold processTCPPacket. rewrite Hh. cbn zeta.
    rewrite Hack, Hlk.
    rewrite (dispatch_known ack packets _ _ (List.length heap) Hall)
      by apply lookup_insert_eq.
    f_equal. f_equal. rewrite list_alter_alter_eq.
    replace (List.length heap) with (List.length heap + 0)%nat at 1 by lia.
    by rewrite alter_app_r.
Qed.

Lemma dispatch_one_flow_witness :
  dispatch [second_packet; second_packet] scenario_listener []
  = Some (set_messages <[42 := 0%nat]> scenario_listener,
          [unit42 [second_packet; second_packet] ""
             tcp_message.Building]).
Proof.
  assert (Hflow : Forall (of_flow 42) [second_packet; second_packet]).
  { repeat constructor; by eexists. }
  exact (dispatch_one_flow 42 [second_packet; second_packet]
           scenario_listener [] Hflow ltac:(discriminate)).
Defined.

(** ** Eviction *)

(** X6: once a finished message has been taken off [c_del_message], the
    next packet of the same flow is not appended to it: it starts a new
    unit, at a new address, registered under the flow's [Ack], with that
    packet alone waiting; the finished unit is as it was. *)
Theorem packet_after_eviction_starts_new_unit (t : RAWTCPListener)
    (heap : list tcp_message.TCPMessage) (message : ptr)
    (m : tcp_message.TCPMessage) (packet : pcap.Packet) :
  heap !! message = Some m ->
  of_flow (tcp_message.Ack m) packet ->
  exists t1 t2,
    listen (from_c_del_message message) t heap = Some (t1, heap)
    /\ listen (from_c_packets packet) t1 heap
       = Some (t2,
               heap ++ [tcp_message.set_c_packets (fun _ => [packet])
                          (tcp_message.NewTCPMessage (tcp_message.Ack m))])
    /\ messages t2 !! tcp_message.Ack m = Some (List.length heap)
    /\ List.length heap <> message
    /\ c_messages t2 = send message (c_messages t).
Proof.
  intros Hm (h & Hh & Hack). eexists _, _.
  split; [simpl; by rewrite Hm|].
  split; [|split; [|split]].
  - simpl. unfold processTCPPacket. rewrite Hh. cbn zeta.
    rewrite Hack. simpl. rewrite lookup_delete_eq.
    f_equal. f_equal.
    replace (List.length heap) with (List.length heap + 0)%nat at 1 by lia.
    by rewrite alter_app_r.
  - simpl. apply lookup_insert_eq.
  - apply lookup_lt_Some in Hm. lia.
  - done.
Qed.

Lemma packet_after_eviction_starts_new_unit_witness :
  exists t1 t2,
    listen (from_c_del_message 0%nat) (listener scenario_completed)
      (heap scenario_completed)
    = Some (t1, heap scenario_completed)
    /\ messages t2 !! 42 = Some 1%nat.
Proof.
  assert (Hflow : of_flow 42 second_packet) by (by eexists).
  destruct (packet_after_eviction_starts_new_unit
              (listener scenario_completed) (heap scenario_completed)
              0%nat _ second_packet eq_refl Hflow)
    as (t1 & t2 & H1 & _ & H2 & _).
  exists t1, t2. split; [exact H1|exact H2].
Defined.

(** X7: [listen] forwards every signal: a message signalled twice is
    sent on [c_messages] twice, and a signal for a message that is not
    in the table (any more) is delivered all the same; the second
    deletion finds no entry and changes nothing. *)
Theorem signal_twice_delivers_twice (t : RAWTCPListener)
    (heap : list tcp_message.TCPMessage) (message : ptr)
    (m : tcp_message.TCPMessage) :
  heap !! message = Some m ->
  exists t1 t2,
    listen (from_c_del_message message) t heap = Some (t1, heap)
    /\ listen (from_c_del_message message) t1 heap = Some (t2, heap)
    /\ c_messages t2 = c_messages t ++ [message; message]
    /\ messages t2 = messages t1
    /\ messages t1 = delete (tcp_message.Ack m) (messages t).
Proof.
  intros Hm. eexists _, _.
  split; [simpl; by rewrite Hm|].
  split; [simpl; by rewrite Hm|]. simpl. unfold send.
  split; [by rewrite <- app_assoc|]. split; [|done].
  apply delete_id, lookup_delete_eq.
Qed.

Lemma signal_twice_delivers_twice_witness :
  exists t2,
    c_messages t2 = [0%nat; 0%nat] /\ messages t2 !! 42 = None.
Proof.
  destruct (signal_twice_delivers_twice (listener scenario_completed)
              (heap scenario_completed) 0%nat _ eq_refl)
    as (t1 & t2 & _ & _ & Hc & Ht2 & Ht1).
  exists t2. split; [exact Hc|].
  rewrite Ht2, Ht1. apply lookup_delete_eq.
Defined.

(** ** The order of delivery *)

Lemma processTCPPacket_channels packet t heap t' heap' :
  processTCPPacket packet t heap = Some (t', heap') ->
  c_packets t' = c_packets t
  /\ c_messages t' = c_messages t
  /\ c_del_message t' = c_del_message t
  /\ port t' = port t /\ device t' = device t /\ sniffer t' = sniffer t.
Proof.
  intros H. apply processTCPPacket_Some in H as (h & _ & Hcase).
  destruct (messages t !! pcap.Ack h); by destruct Hcase as [-> ->].
Qed.

Lemma signalled_step timers w w' :
  step timers w w' ->
  exists more, signalled w' = signalled w ++ more.
Proof.
  unfold signalled.
  destruct 1 as
    [w next rest t' Hwire Hread Hcap
    |w message rest t' heap' Hdel Hlisten Hcap
    |w packet rest t' heap' Hpk Hlisten
    |w message m packet rest m' emit t' Hm Hin Happ Ht' Hcap
    |w message m m' emit t' _ Hm Hexp Ht' Hcap
    |w message t' Hrecv]; simpl.
  - exists []. rewrite app_nil_r.
    destruct (readRAWSocket_cases (listener w) next)
      as [He|(pkt & -> & Hw & He)]; rewrite He in Hread; by subst t'.
  - simpl in Hlisten. destruct (heap w !! message); [|done].
    simplify_eq. simpl. exists []. rewrite app_nil_r, Hdel.
    unfold send. by rewrite <- !app_assoc.
  - simpl in Hlisten.
    apply processTCPPacket_channels in Hlisten as (_ & Hc & Hd & _).
    simpl in *. exists []. by rewrite app_nil_r, Hc, Hd.
  - subst t'. destruct emit; simpl.
    + exists [message]. unfold send. by rewrite !app_assoc.
    + exists []. by rewrite app_nil_r.
  - subst t'. destruct emit; simpl.
    + exists [message]. unfold send. by rewrite !app_assoc.
    + exists []. by rewrite app_nil_r.
  - unfold Receive in Hrecv.
    destruct (c_messages (listener w)) as [|p rest] eqn:Hc; [done|].
    simplify_eq. simpl. exists [].
    by rewrite app_nil_r, <- !app_assoc.
Qed.

(** X8: signals are delivered in the order they were given, none lost,
    none repeated, none overtaking: along any run the sequence made of
    what [Receive] has returned, then what waits on [c_messages], then
    what waits on [c_del_message], only ever grows at its end. *)
Theorem delivery_keeps_order (timers : bool) (w w' : World) :
  rtc (step timers) w w' ->
  exists more,
    received w' ++ c_messages (listener w') ++ c_del_message (listener w')
    = (received w ++ c_messages (listener w) ++ c_del_message (listener w))
      ++ more.
Proof.
  intros Hrtc. fold (signalled w) (signalled w').
  induction Hrtc as [w|w w1 w' Hstep _ [more' IH]].
  - exists []. by rewrite app_nil_r.
  - destruct (signalled_step _ _ _ Hstep) as [more Hmore].
    exists (more ++ more'). by rewrite IH, Hmore, app_assoc.
Qed.

Lemma delivery_keeps_order_witness :
  exists more,
    received scenario_received
    ++ c_messages (listener scenario_received)
    ++ c_del_message (listener scenario_received)
    = (received scenario_completed
       ++ c_messages (listener scenario_completed)
       ++ c_del_message (listener scenario_completed)) ++ more.
Proof.
  apply (delivery_keeps_order false scenario_completed scenario_received).
  eapply rtc_l; [apply scenario_step_5|].
  eapply rtc_l; [apply scenario_step_6|]. apply rtc_refl.
Defined.

(** ** Routing *)

Lemma routed_start t frames : fresh t -> routed t frames (start t frames).
Proof.
  intros (_ & Hp & _ & _). split; simpl; [done|done|done|done| |].
  - rewrite Hp. intros p Hin. by apply elem_of_nil in Hin.
  - intros message m p Hm. by rewrite lookup_nil in Hm.
Qed.

Lemma routed_emit t0 frames w message m m' emit t' :
  routed t0 frames w ->
  heap w !! message = Some m ->
  tcp_message.Ack m' = tcp_message.Ack m ->
  (forall p, p ∈ tcp_message.c_packets m' -> p ∈ tcp_message.c_packets m) ->
  (if emit : bool then set_c_del_message (send message) (listener w)
   else listener w) = t' ->
  routed t0 frames
    {| listener := t'; heap := <[message := m']> (heap w);
       wire := wire w; received := received w |}.
Proof.
  intros [Hport Hdev Hsn Hwire Hq Hin] Hm Hack Hsub <-.
  split; simpl; try (by destruct emit).
  intros p m0 pk Hp Hpk.
  destruct (decide (message = p)) as [->|Hne].
  - rewrite list_lookup_insert_eq in Hp by (by eapply lookup_lt_Some).
    simplify_eq. rewrite Hack. eauto.
  - rewrite list_lookup_insert_ne in Hp by done. eauto.
Qed.

Lemma routed_step timers t0 frames w w' :
  invariant w -> routed t0 frames w -> step timers w w' ->
  routed t0 frames w'.
Proof.
  intros Hinv Hr Hstep.
  destruct Hstep as
    [w next rest t' Hw Hread Hcap
    |w message rest t' heap' Hdel Hlisten Hcap
    |w packet rest t' heap' Hpk Hlisten
    |w message m packet rest m' emit t' Hm Hin Happ Ht' Hcap
    |w message m m' emit t' _ Hm Hexp Ht' Hcap
    |w message t' Hrecv].
  - (* readRAWSocket *)
    destruct Hr as [Hport Hdev Hsn Hwire Hq Hinb].
    assert (Hnext : next ∈ frames) by (apply Hwire; rewrite Hw; by left).
    assert (Hrest : forall n, n ∈ rest -> n ∈ frames).
    { intros n Hn. apply Hwire. rewrite Hw. by right. }
    destruct (readRAWSocket_cases (listener w) next)
      as [He|(pkt & -> & Hwant & He)]; rewrite He in Hread; subst t'.
    + by split.
    + split; simpl; try done.
      intros p [Hp|Hp%list_elem_of_singleton]%elem_of_app; [auto|].
      subst p. split; [|done].
      destruct Hwant as (h & Hh & Hpt & Hpsh). exists h.
      rewrite <- Hport. auto.
  - (* listen, a finished message *)
    destruct Hr as [Hport Hdev Hsn Hwire Hq Hinb]. simpl in Hlisten.
    destruct (heap w !! message); [|done]. simplify_eq. by split.
  - (* listen, a packet *)
    destruct Hr as [Hport Hdev Hsn Hwire Hq Hinb]. simpl in Hlisten.
    destruct (Hq packet) as [Hwant Hfrom]; [rewrite Hpk; by left|].
    pose proof (processTCPPacket_channels _ _ _ _ _ Hlisten)
      as (Hc & _ & _ & Hp' & Hd' & Hs').
    apply processTCPPacket_Some in Hlisten as (h & Hh & Hcase).
    simpl in *.
    assert (Hpush : forall m m',
              tcp_message.Ack m = pcap.Ack h ->
              (forall p, p ∈ tcp_message.c_packets m ->
                 wanted t0 p /\ Some p ∈ frames
                 /\ of_flow (tcp_message.Ack m) p) ->
              m' = tcp_message.set_c_packets (send packet) m ->
              forall p, p ∈ tcp_message.c_packets m' ->
                wanted t0 p /\ Some p ∈ frames
                /\ of_flow (tcp_message.Ack m') p).
    { intros m m' Hack Hold -> p. simpl.
      intros [Hp|Hp%list_elem_of_singleton]%elem_of_app; [auto|].
      subst p. split; [done|]. split; [done|]. by exists h. }
    split; simpl; [congruence|congruence|congruence|done| |].
    + rewrite Hc. intros p Hp. apply Hq. rewrite Hpk. by right.
    + intros p m0 pk Hlk Hin.
      destruct (messages (listener w) !! pcap.Ack h) as [message|] eqn:Ht;
        destruct Hcase as [-> ->].
      * destruct (decide (message = p)) as [->|Hne].
        -- rewrite list_lookup_alter_eq in Hlk.
           destruct (heap w !! p) as [m|] eqn:Hm; [|done].
           simpl in Hlk. simplify_eq.
           destruct (inv_table _ Hinv _ _ Ht) as (m1 & Hm1 & Hack).
           simplify_eq. eapply Hpush; eauto.
        -- rewrite list_lookup_alter_ne in Hlk by done. eauto.
      * destruct (decide (List.length (heap w) = p)) as [<-|Hne].
        -- rewrite list_lookup_alter_eq, lookup_app_r in Hlk by done.
           rewrite Nat.sub_diag in Hlk. simpl in Hlk. simplify_eq.
           simpl in Hin. apply list_elem_of_singleton in Hin as ->.
           split; [done|]. split; [done|]. by exists h.
        -- rewrite list_lookup_alter_ne in Hlk by done.
           apply lookup_app_Some in Hlk as [Hlk|[Hge Hlk]]; [eauto|].
           apply list_lookup_singleton_Some in Hlk as [Hz _]. lia.
  - (* a message takes a packet *)
    eapply routed_emit; eauto.
    + by rewrite (append_Ack _ _ _ _ Happ).
    + intros p Hp. rewrite Hin. right.
      unfold tcp_message.append in Happ.
      destruct (_ && _); by simplify_eq.
  - (* a watchdog fires *)
    eapply routed_emit; eauto using expire_Ack.
    intros p Hp. unfold tcp_message.expire in Hexp.
    destruct (bool_decide _); by simplify_eq.
  - (* Receive *)
    destruct Hr as [Hport Hdev Hsn Hwire Hq Hinb]. unfold Receive in Hrecv.
    destruct (c_messages (listener w)); [done|]. simplify_eq. by split.
Qed.

Lemma routed_rtc t frames w :
  fresh t -> rtc (step true) (start t frames) w -> routed t frames w.
Proof.
  intros Hfresh Hrtc.
  assert (Hgen : forall w0, invariant w0 -> routed t frames w0 ->
                   rtc (step true) w0 w -> routed t frames w).
  { clear Hrtc. intros w0 Hi Hr Hrun. revert Hi Hr.
    induction Hrun as [|w0 w1 w2 Hstep _ IH]; intros Hi Hr; [done|].
    apply IH; [by eapply invariant_step|by eapply routed_step]. }
  eapply Hgen; [by apply invariant_start|by apply routed_start|done].
Qed.

(** X5: packets only reach the unit of their own flow.  In every state
    of a run, each packet waiting in the [c_packets] of an allocated
    [TCPMessage] was captured (it is one of the frames), has the
    configured destination port and the push flag in its TCP header, and
    has the [Ack] of that very unit; and each packet waiting on the
    listener's [c_packets] was captured and has the port and the flag. *)
Theorem packets_reach_their_own_unit (t : RAWTCPListener)
    (frames : list (option pcap.Packet)) (w : World) :
  fresh t ->
  rtc (step true) (start t frames) w ->
  (forall message m packet,
     heap w !! message = Some m ->
     packet ∈ tcp_message.c_packets m ->
     Some packet ∈ frames
     /\ exists h,
          pcap.Headers packet !! 1%nat = Some (pcap.TcpHeader h)
          /\ pcap.Ack h = tcp_message.Ack m
          /\ pcap.DestPort h = port t
          /\ Z.land (pcap.Flags h) pcap.TCP_PSH <> 0)
  /\ (forall packet,
        packet ∈ c_packets (listener w) ->
        Some packet ∈ frames /\ wanted t packet).
Proof.
  intros Hfresh Hrun.
  destruct (routed_rtc _ _ _ Hfresh Hrun) as [_ _ _ _ Hq Hinb]. split.
  - intros message m packet Hm Hin.
    destruct (Hinb _ _ _ Hm Hin) as ((h & Hh & Hp & Hf) & Hfr & Hflow).
    split; [done|]. exists h.
    destruct Hflow as (h' & Hh' & Hack). by simplify_eq.
  - intros packet Hin. destruct (Hq _ Hin). done.
Qed.

Lemma packets_reach_their_own_unit_witness :
  rtc (step true) scenario scenario_dispatched
  /\ exists h,
       pcap.Headers second_packet !! 1%nat = Some (pcap.TcpHeader h)
       /\ pcap.Ack h = 42
       /\ pcap.DestPort h = 80
       /\ Z.land (pcap.Flags h) pcap.TCP_PSH <> 0.
Proof.
  assert (Hrun : rtc (step true) scenario scenario_dispatched).
  { eapply rtc_l; [apply scenario_step_1|].
    eapply rtc_l; [apply scenario_step_2|].
    eapply rtc_l; [apply scenario_step_3|]. apply rtc_refl. }
  split; [exact Hrun|].
  destruct (packets_reach_their_own_unit scenario_listener
              [Some first_packet; Some second_packet]
              scenario_dispatched scenario_listener_fresh Hrun)
    as [Hinbox _].
  destruct (Hinbox 0%nat _ second_packet eq_refl (list_elem_of_here _ _))
    as (_ & h & Hh & Hack & Hport & Hpsh).
  exists h. auto.
Defined.

(** ** Start-up, case by case *)

Lemma find_networkInterface_decide Settings_Device devices :
  find_networkInterface Settings_Device devices
  = if bool_decide (Settings_Device ∈ pcap.Name <$> devices)
    then Settings_Device else "".
Proof.
  induction devices as [|device devices IH]; [done|].
  cbn [find_networkInterface fmap list_fmap].
  destruct (String.eqb_spec (pcap.Name device) Settings_Device) as [He|Hne].
  - rewrite bool_decide_eq_true_2; [done|]. rewrite He. by left.
  - rewrite IH.
    rewrite (bool_decide_ext
               (Settings_Device ∈ pcap.Name device :: (pcap.Name <$> devices))
               (Settings_Device ∈ pcap.Name <$> devices)); [done|].
    rewrite elem_of_cons. split; [|auto]. by intros [?|?].
Qed.

(** X9: the device loop of [startSniffer] is an exact, case-sensitive
    membership test: it yields the configured name when some enumerated
    device bears exactly that name, and the empty string otherwise,
    whatever the order of the devices and however often the name
    occurs. *)
Theorem find_networkInterface_exact (Settings_Device : string)
    (devices : list pcap.Interface) :
  (find_networkInterface Settings_Device devices = Settings_Device <->
     Settings_Device = ""
     \/ exists d, d ∈ devices /\ pcap.Name d = Settings_Device)
  /\ (find_networkInterface Settings_Device devices = "" <->
        Settings_Device = ""
        \/ forall d, d ∈ devices -> pcap.Name d <> Settings_Device).
Proof.
  rewrite find_networkInterface_decide.
  destruct (decide (Settings_Device ∈ pcap.Name <$> devices)) as [Hin|Hout].
  - rewrite (bool_decide_eq_true_2 _ Hin).
    apply list_elem_of_fmap in Hin as (d & Hd & Hin).
    split; split; try done.
    + intros _. right. by exists d.
    + intros Hempty. by left.
    + intros [He|Hall]; [done|]. by destruct (Hall d Hin).
  - rewrite (bool_decide_eq_false_2 _ Hout).
    assert (Hall : forall d, d ∈ devices -> pcap.Name d <> Settings_Device).
    { intros d Hd He. apply Hout, list_elem_of_fmap. by exists d. }
    split; split; try done.
    + intros He. by left.
    + intros [He|(d & Hd & He)]; [done|]. by destruct (Hall d Hd).
    + intros _. by right.
Qed.

(** [RAWTCPListen], run to its end. *)
Lemma RAWTCPListen_runs Settings_Device lib device port :
  RAWTCPListen Settings_Device lib device port
  = let new :=
      {| messages := ∅; c_packets := []; c_messages := [];
         sniffer := None; c_del_message := [];
         device := device; port := port |} in
    let expr := "tcp dst port " +:+ go_string_of_int port in
    match pcap.Findalldevs lib with
    | (_, Some e) =>
        ([call_Findalldevs], Fatal ("Error while getting device list" +:+ e))
    | (devices, None) =>
        if bool_decide (Settings_Device <> ""
                        /\ Settings_Device ∈ pcap.Name <$> devices)
        then
          let '(h, err) := pcap.Openlive lib Settings_Device 4026 true 0 in
          ([call_Findalldevs; call_Openlive Settings_Device 4026 true 0;
            call_Setfilter h expr],
           match pcap.Setfilter lib h expr with
           | pcap.Panics => Panic
           | pcap.Returns _ =>
               match err with
               | Some e => Fatal ("Error while trying to listen" +:+ e)
               | None => Done (set_sniffer h new)
               end
           end)
        else ([call_Findalldevs],
              Fatal ("Could not find network interface" +:+ Settings_Device))
    end.
Proof.
  rewrite RAWTCPListen_startSniffer, startSniffer_runs. cbn zeta.
  destruct (pcap.Findalldevs lib) as [devices [e|]]; [done|].
  rewrite find_networkInterface_decide.
  destruct (decide (Settings_Device ∈ pcap.Name <$> devices)) as [Hin|Hout].
  - rewrite (bool_decide_eq_true_2 _ Hin).
    destruct (String.eqb_spec Settings_Device "") as [He|Hne].
    + rewrite bool_decide_eq_false_2; [done|]. by intros [? _].
    + by rewrite bool_decide_eq_true_2.
  - rewrite (bool_decide_eq_false_2 _ Hout). simpl.
    rewrite bool_decide_eq_false_2; [done|]. by intros [_ ?].
Qed.

(** X10: the library calls of a start-up.  [Findalldevs] is called
    first and once.  A device is opened only when the enumeration
    succeeded and lists the configured name, which is not empty; it is
    then opened once, under that very name, with snapshot length 4026,
    promiscuous, without timeout, and [Setfilter] follows once on
    whatever handle came back.  Nothing else is called. *)
Theorem startup_calls (Settings_Device : string) (lib : pcap.Library)
    (device : string) (port : Z) :
  (RAWTCPListen Settings_Device lib device port).1
  = if bool_decide ((pcap.Findalldevs lib).2 = None
                    /\ Settings_Device <> ""
                    /\ Settings_Device ∈ pcap.Name <$> (pcap.Findalldevs lib).1)
    then [call_Findalldevs;
          call_Openlive Settings_Device 4026 true 0;
          call_Setfilter (pcap.Openlive lib Settings_Device 4026 true 0).1
            ("tcp dst port " +:+ go_string_of_int port)]
    else [call_Findalldevs].
Proof.
  rewrite RAWTCPListen_runs. cbn zeta.
  destruct (pcap.Findalldevs lib) as [devices [e|]]; cbn [fst snd].
  - rewrite bool_decide_eq_false_2; [done|]. by intros [? _].
  - destruct (decide (Settings_Device <> ""
                      /\ Settings_Device ∈ pcap.Name <$> devices))
      as [Hok|Hno].
    + rewrite (bool_decide_eq_true_2 _ Hok).
      rewrite bool_decide_eq_true_2 by done.
      by destruct (pcap.Openlive lib _ _ _ _).
    + rewrite (bool_decide_eq_false_2 _ Hno).
      rewrite bool_decide_eq_false_2; [done|]. by intros [_ ?].
Qed.

(** X11: when start-up succeeds.  [RAWTCPListen] returns a listener
    exactly when the enumeration succeeds, the configured name is not
    empty and is listed, [Openlive] reports no error and [Setfilter]
    returns; the listener then has an empty table and empty channels,
    the handle of [Openlive], and the device and port it was given. *)
Theorem RAWTCPListen_succeeds_iff (Settings_Device : string)
    (lib : pcap.Library) (device : string) (port : Z)
    (t : RAWTCPListener) :
  (exists ops, RAWTCPListen Settings_Device lib device port = (ops, Done t))
  <->
  (pcap.Findalldevs lib).2 = None
  /\ Settings_Device <> ""
  /\ Settings_Device ∈ pcap.Name <$> (pcap.Findalldevs lib).1
  /\ (pcap.Openlive lib Settings_Device 4026 true 0).2 = None
  /\ (exists ferr,
        pcap.Setfilter lib (pcap.Openlive lib Settings_Device 4026 true 0).1
          ("tcp dst port " +:+ go_string_of_int port)
        = pcap.Returns ferr)
  /\ t = {| messages := ∅; c_packets := []; c_messages := [];
            sniffer := (pcap.Openlive lib Settings_Device 4026 true 0).1;
            c_del_message := []; device := device; port := port |}.
Proof.
  rewrite RAWTCPListen_runs. cbn zeta.
  destruct (pcap.Findalldevs lib) as [devices [e|]]; cbn [fst snd].
  { split; [by intros [ops H]|by intros [? _]]. }
  destruct (decide (Settings_Device <> ""
                    /\ Settings_Device ∈ pcap.Name <$> devices))
    as [[Hne Hin]|Hno].
  - rewrite bool_decide_eq_true_2 by done.
    destruct (pcap.Openlive lib _ _ _ _) as [h err]. cbn [fst snd].
    destruct (pcap.Setfilter lib h _) as [ferr|].
    + destruct err as [e|].
      * split; [by intros [ops H]|]. by intros (_ & _ & _ & ? & _).
      * split.
        -- intros [ops H]. simplify_eq. by eauto 10.
        -- intros (_ & _ & _ & _ & _ & ->). by eexists.
    + split; [by intros [ops H]|]. by intros (_ & _ & _ & _ & [? ?] & _).
  - rewrite (bool_decide_eq_false_2 _ Hno).
    split; [by intros [ops H]|]. intros (_ & ? & ? & _). by destruct Hno.
Qed.

(** X12: the error that [Setfilter] returns is dropped: when everything
    else succeeds, [RAWTCPListen] returns the listener with the handle
    stored, although no filter was installed. *)
Theorem filter_failure_is_ignored (Settings_Device : string)
    (lib : pcap.Library) (device : string) (port : Z)
    (h : option pcap.Pcap) (ferr : string) :
  (pcap.Findalldevs lib).2 = None ->
  Settings_Device <> "" ->
  Settings_Device ∈ pcap.Name <$> (pcap.Findalldevs lib).1 ->
  pcap.Openlive lib Settings_Device 4026 true 0 = (h, None) ->
  pcap.Setfilter lib h ("tcp dst port " +:+ go_string_of_int port)
  = pcap.Returns (Some ferr) ->
  RAWTCPListen Settings_Device lib device port
  = ([call_Findalldevs; call_Openlive Settings_Device 4026 true 0;
      call_Setfilter h ("tcp dst port " +:+ go_string_of_int port)],
     Done {| messages := ∅; c_packets := []; c_messages := [];
             sniffer := h; c_del_message := [];
             device := device; port := port |}).
Proof.
  intros Hdev Hne Hin Hopen Hfilter. rewrite RAWTCPListen_runs. cbn zeta.
  destruct (pcap.Findalldevs lib) as [devices err]. simpl in *. subst err.
  rewrite bool_decide_eq_true_2 by done.
  by rewrite Hopen, Hfilter.
Qed.

Lemma filter_failure_is_ignored_witness :
  RAWTCPListen "eth0" bad_filter_lib "eth0" 80
  = ([call_Findalldevs; call_Openlive "eth0" 4026 true 0;
      call_Setfilter (Some {| pcap.cptr := 1 |}) "tcp dst port P"],
     Done scenario_listener).
Proof.
  refine (filter_failure_is_ignored "eth0" bad_filter_lib "eth0" 80
            (Some {| pcap.cptr := 1 |}) "syntax error"
            eq_refl _ _ eq_refl eq_refl).
  - discriminate.
  - apply list_elem_of_here.
Defined.

(** ** The running process *)

(** X13: the loops never change the configuration.  In every state the
    process can be in after [RAWTCPListen] returned, the listener still
    has the port and the device it was given and the handle [Openlive]
    returned; and the state is among those the invariants of the
    dispatcher were proved for. *)
Theorem configuration_is_kept (Settings_Device : string)
    (lib : pcap.Library) (device' : string) (port' : Z)
    (frames : list (option pcap.Packet)) (w : World) :
  running Settings_Device lib device' port' frames w ->
  port (listener w) = port'
  /\ device (listener w) = device'
  /\ sniffer (listener w)
     = (pcap.Openlive lib Settings_Device 4026 true 0).1
  /\ reachable w.
Proof.
  intros (ops & t & Hdone & Hrun).
  assert (Ht : t = {| messages := ∅; c_packets := []; c_messages := [];
                      sniffer :=
                        (pcap.Openlive lib Settings_Device 4026 true 0).1;
                      c_del_message := [];
                      device := device'; port := port' |}).
  { rewrite RAWTCPListen_runs in Hdone. cbn zeta in Hdone.
    destruct (pcap.Findalldevs lib) as [devices [e|]]; [done|].
    destruct (bool_decide _); [|done].
    destruct (pcap.Openlive lib _ _ _ _) as [h err].
    destruct (pcap.Setfilter lib h _); [|done].
    destruct err; by simplify_eq. }
  assert (Hfresh : fresh t) by (by subst t).
  destruct (routed_rtc _ _ _ Hfresh Hrun) as [Hp Hd Hs _ _ _].
  split; [by rewrite Hp, Ht|]. split; [by rewrite Hd, Ht|].
  split; [by rewrite Hs, Ht|]. by exists t, frames.
Qed.

Lemma configuration_is_kept_witness :
  port (listener scenario_received) = 80
  /\ device (listener scenario_received) = "eth0".
Proof.
  assert (Hrun : running "eth0" eth0_lib "eth0" 80
                   [Some first_packet; Some second_packet]
                   scenario_received).
  { exists [call_Findalldevs; call_Openlive "eth0" 4026 true 0;
            call_Setfilter (Some {| pcap.cptr := 1 |}) "tcp dst port P"],
      scenario_listener.
    split; [reflexivity|].
    eapply rtc_l; [apply scenario_step_1|].
    eapply rtc_l; [apply scenario_step_2|].
    eapply rtc_l; [apply scenario_step_3|].
    eapply rtc_l; [apply scenario_step_4|].
    eapply rtc_l; [apply scenario_step_5|].
    eapply rtc_l; [apply scenario_step_6|]. apply rtc_refl. }
  destruct (configuration_is_kept _ _ _ _ _ _ Hrun) as (Hp & Hd & _).
  split; [exact Hp|exact Hd].
Defined.

(** ** How many units are allocated *)

Lemma wantedb_port t t' : port t' = port t -> wantedb t' = wantedb t.
Proof. intros Hp. unfold wantedb. by rewrite Hp. Qed.

Lemma processTCPPacket_length packet t heap t' heap' :
  processTCPPacket packet t heap = Some (t', heap') ->
  (List.length heap' <= S (List.length heap))%nat.
Proof.
  intros H. apply processTCPPacket_Some in H as (h & _ & Hcase).
  destruct (messages t !! pcap.Ack h); destruct Hcase as [-> ->];
    rewrite length_alter; [lia|].
  rewrite length_app. simpl. lia.
Qed.

Lemma passing_None t frames : passing t (None :: frames) = passing t frames.
Proof. reflexivity. Qed.

Lemma passing_Some t pkt frames :
  passing t (Some pkt :: frames)
  = if wantedb t pkt then S (passing t frames) else passing t frames.
Proof.
  unfold passing.
  change (omap id (Some pkt :: frames)) with (pkt :: omap id frames).
  cbn [List.filter]. by destruct (wantedb t pkt).
Qed.

Lemma load_step timers t w w' :
  port (listener w) = port t ->
  step timers w w' -> (load t w' <= load t w)%nat.
Proof.
  intros Hport Hstep. unfold load.
  destruct Hstep as
    [w next rest t' Hw Hread Hcap
    |w message rest t' heap' Hdel Hlisten Hcap
    |w packet rest t' heap' Hpk Hlisten
    |w message m packet rest m' emit t' Hm Hin Happ Ht' Hcap
    |w message m m' emit t' _ Hm Hexp Ht' Hcap
    |w message t' Hrecv]; simpl.
  - rewrite Hw. subst t'. destruct next as [pkt|].
    + rewrite passing_Some, readRAWSocket_wantedb,
        (wantedb_port _ _ Hport).
      destruct (wantedb t pkt); simpl; [|lia].
      unfold send. rewrite length_app. simpl. lia.
    + rewrite passing_None. simpl. lia.
  - simpl in Hlisten. destruct (heap w !! message); [|done].
    simplify_eq. simpl. lia.
  - simpl in Hlisten.
    pose proof (processTCPPacket_length _ _ _ _ _ Hlisten) as Hlen.
    apply processTCPPacket_channels in Hlisten as (Hc & _).
    rewrite Hc, Hpk. simpl. lia.
  - subst t'. rewrite length_insert. destruct emit; simpl; lia.
  - subst t'. rewrite length_insert. destruct emit; simpl; lia.
  - unfold Receive in Hrecv.
    destruct (c_messages (listener w)); [done|]. simplify_eq. simpl. lia.
Qed.

(** X14: no more units than packets that passed.  In every state of a
    run the number of [TCPMessage]s allocated so far, plus the packets
    still waiting on the capture queue, plus the frames still to come
    that will pass the port and push-flag test, is at most the number
    of frames of the whole capture that pass it: each unit is paid for
    by a captured packet of its own. *)
Theorem units_bounded_by_passing_frames (t : RAWTCPListener)
    (frames : list (option pcap.Packet)) (w : World) :
  fresh t ->
  rtc (step true) (start t frames) w ->
  (List.length (heap w) + List.length (c_packets (listener w))
   + passing t (wire w) <= passing t frames)%nat.
Proof.
  intros Hfresh Hrun. fold (load t w). revert w Hrun.
  apply rtc_ind_r.
  - destruct Hfresh as (_ & Hq & _). unfold load. simpl. rewrite Hq.
    simpl. lia.
  - intros w w' Hrun Hstep IH.
    pose proof (routed_port _ _ _ (routed_rtc _ _ _ Hfresh Hrun)) as Hport.
    pose proof (load_step _ _ _ _ Hport Hstep). lia.
Qed.

Lemma units_bounded_by_passing_frames_witness :
  (List.length (heap scenario_received) <= 1)%nat.
Proof.
  assert (Hrun : rtc (step true) scenario scenario_received).
  { eapply rtc_l; [apply scenario_step_1|].
    eapply rtc_l; [apply scenario_step_2|].
    eapply rtc_l; [apply scenario_step_3|].
    eapply rtc_l; [apply scenario_step_4|].
    eapply rtc_l; [apply scenario_step_5|].
    eapply rtc_l; [apply scenario_step_6|]. apply rtc_refl. }
  pose proof (units_bounded_by_passing_frames scenario_listener
                [Some first_packet; Some second_packet] scenario_received
                scenario_listener_fresh Hrun) as Hle.
  exact (Nat.le_trans _ _ _ (Nat.le_add_r _ _)
           (Nat.le_trans _ _ _ (Nat.le_add_r _ _) Hle)).
Defined.
